(** * ComputeBigPrimesCPP: the two prime generators, embedded and verified

    [Primes64]  embeds ComputePrimes64bits/ComputePrimes64bits.cpp (uint64_t).
    [BigPrimes] embeds ComputeBigPrimesCPP/ComputeBigPrimesCPP.cpp (cpp_int).

    Integers of both programs are values of [Z].  A [u64] is a [Z] in
    [0, 2^64) and every u64 addition of the source is followed by its
    reduction modulo 2^64 ([wrap64]); a [cpp_int] is a [Z] as it stands.
    Loops are structural recursions on a fuel argument.  The bit loops and
    the candidate filters are total: the lemmas named [*_fuel] show that the
    fuel their callers pass is never exhausted.  The two generation loops
    return [None] when the fuel runs out. *)

From Stdlib Require Import String Ascii.
From Stdlib Require Import ZArith Znumtheory List Sorted Lia Bool.
From Stdlib Require Import Zmod.ZmodInv.
Import ListNotations.
Open Scope Z_scope.

(** ** What a run of [main] can end in *)

Inductive exception : Type :=
| Invalid_argument   (* std::invalid_argument *)
| Out_of_range.      (* std::out_of_range *)

Inductive outcome : Type :=
| Exit (code : Z) (out : list Z) (err : list string)
| Terminate (e : exception).   (* an exception leaves main: std::terminate *)

Definition U64_MAX : Z := 18446744073709551615.
Definition two64 : Z := Eval cbv in 2 ^ 64.
Definition two128 : Z := Eval cbv in 2 ^ 128.
Definition wrap64 (x : Z) : Z := x mod two64.
Definition wrap128 (x : Z) : Z := x mod two128.

(** ** std::stoull, base 10, as the C++ standard gives it through strtoull:
    leading white space, an optional sign, then at least one digit; what
    follows the digits is ignored. *)

Inductive stoull_result : Type :=
| Value (v : Z)
| Throws (e : exception).

Definition is_space (c : ascii) : bool :=
  let k := Z.of_N (N_of_ascii c) in (k =? 32) || ((9 <=? k) && (k <=? 13)).

Definition digit_of (c : ascii) : option Z :=
  let k := Z.of_N (N_of_ascii c) in
  if (48 <=? k) && (k <=? 57) then Some (k - 48) else None.

Fixpoint skip_spaces (s : string) : string :=
  match s with
  | String c r => if is_space c then skip_spaces r else s
  | EmptyString => s
  end.

Fixpoint read_digits (s : string) (acc : option Z) : option Z :=
  match s with
  | String c r =>
    match digit_of c with
    | Some k => read_digits r (Some (10 * match acc with Some a => a | None => 0 end + k))
    | None => acc
    end
  | EmptyString => acc
  end.

Definition stoull (s : string) : stoull_result :=
  let s := skip_spaces s in
  let '(neg, s) :=
    match s with
    | String "-"%char r => (true, r)
    | String "+"%char r => (false, r)
    | _ => (false, s)
    end in
  match read_digits s None with
  | None => Throws Invalid_argument
  | Some v => if v >? U64_MAX then Throws Out_of_range
              else Value (if neg then wrap64 (- v) else v)
  end.

(** ** ComputePrimes64bits.cpp *)

Module Primes64.

(** The two bodies of [mul_mod]: [#ifdef _MSC_VER] selects the doubling loop,
    any other compiler the 128-bit product. *)
Inductive toolchain : Type := MSVC | GNU.

(** [while (bb)] of the MSVC body; [tmp < result] and [base < base - base]
    are the source's own overflow tests, on the wrapped sums. *)
Fixpoint mul_mod_loop (fuel : nat) (result base bb md : Z) : Z :=
  match fuel with
  | O => result
  | S fuel' =>
    if bb =? 0 then result else
    let result' :=
      if Z.land bb 1 =? 0 then result
      else
        let tmp := wrap64 (result + base) in
        let tmp := if (tmp <? result) || (tmp >=? md) then tmp mod md else tmp in
        tmp mod md in
    let bb' := Z.shiftr bb 1 in
    let base' :=
      if bb' =? 0 then base
      else
        let base2 := wrap64 (base + base) in
        if (base2 >=? md) || (base2 <? wrap64 (base2 - base2))
        then base2 mod md else base2 in
    mul_mod_loop fuel' result' base' bb' md
  end.

Definition mul_mod (tc : toolchain) (a b md : Z) : Z :=
  match tc with
  | MSVC => mul_mod_loop 64 0 (a mod md) b md mod md
  | GNU => wrap64 (wrap128 (a * b) mod md)
  end.

Fixpoint pow_mod_loop (tc : toolchain) (fuel : nat) (res a d md : Z) : Z :=
  match fuel with
  | O => res
  | S fuel' =>
    if d =? 0 then res else
    let res' := if Z.land d 1 =? 0 then res else mul_mod tc res a md in
    pow_mod_loop tc fuel' res' (mul_mod tc a a md) (Z.shiftr d 1) md
  end.

Definition pow_mod (tc : toolchain) (a d md : Z) : Z :=
  pow_mod_loop tc 64 1 (a mod md) d md.

Definition small_primes : list Z := [2; 3; 5; 7; 11; 13; 17; 19; 23; 29; 31; 37].

Definition bases : list Z :=
  [2; 325; 9375; 28178; 450775; 9780504; 1795265022].

(** [for (u64 p : small_primes)]: [Some b] when the loop returns [b]. *)
Fixpoint trial_division_u64 (ps : list Z) (n : Z) : option bool :=
  match ps with
  | [] => None
  | p :: ps' =>
    if n =? p then Some true
    else if n mod p =? 0 then Some false
    else trial_division_u64 ps' n
  end.

(** [while ((d & 1) == 0) { d >>= 1; ++s; }] *)
Fixpoint decompose_loop_u64 (fuel : nat) (d s : Z) : Z * Z :=
  match fuel with
  | O => (d, s)
  | S fuel' =>
    if Z.land d 1 =? 0 then decompose_loop_u64 fuel' (Z.shiftr d 1) (s + 1) else (d, s)
  end.

(** [for (int r = 1; r < s; ++r)]: the value of [composite] after the loop. *)
Fixpoint square_loop_u64 (tc : toolchain) (fuel : nat) (r s x n : Z) : bool :=
  match fuel with
  | O => true
  | S fuel' =>
    if r <? s then
      let x' := mul_mod tc x x n in
      if x' =? n - 1 then false else square_loop_u64 tc fuel' (r + 1) s x' n
    else true
  end.

(** [for (u64 a : bases)] *)
Fixpoint bases_loop (tc : toolchain) (bs : list Z) (n d s : Z) : bool :=
  match bs with
  | [] => true
  | a :: bs' =>
    if a mod n =? 0 then bases_loop tc bs' n d s else
    let x := pow_mod tc a d n in
    if (x =? 1) || (x =? n - 1) then bases_loop tc bs' n d s else
    if square_loop_u64 tc (Z.to_nat s) 1 s x n then false
    else bases_loop tc bs' n d s
  end.

Definition is_prime_u64 (tc : toolchain) (n : Z) : bool :=
  if n <? 2 then false else
  match trial_division_u64 small_primes n with
  | Some b => b
  | None =>
    let '(d, s) := decompose_loop_u64 64 (n - 1) 0 in
    bases_loop tc bases n d s
  end.

(** [while (n % 3 == 0) n += 2;] *)
Fixpoint skip3_loop (fuel : nat) (n : Z) : Z :=
  match fuel with
  | O => n
  | S fuel' => if n mod 3 =? 0 then skip3_loop fuel' (wrap64 (n + 2)) else n
  end.

Definition next_candidate_u64 (n : Z) : Z :=
  if n <=? 2 then 2 else
  let n := if Z.land n 1 =? 0 then wrap64 (n + 1) else n in
  skip3_loop 2 n.

(** [while (primes.size() < count)]; [None] when the fuel runs out. *)
Fixpoint generate_loop_u64 (tc : toolchain) (fuel : nat) (n : Z) (primes : list Z)
    (count : Z) : option (list Z) :=
  match fuel with
  | O => None
  | S fuel' =>
    if Z.of_nat (length primes) <? count then
      let primes' := if is_prime_u64 tc n then primes ++ [n] else primes in
      if n >=? U64_MAX - 2 then Some primes'
      else generate_loop_u64 tc fuel' (wrap64 (n + 2)) primes' count
    else Some primes
  end.

(** The function from its first candidate on.  [primes.reserve(count)] is
    left out: it returns nothing and changes no value, and it throws
    (std::length_error, std::bad_alloc) when the vector cannot be allocated;
    the model describes the runs in which it succeeds. *)
Definition generate_primes_u64 (tc : toolchain) (fuel : nat) (start count : Z)
    : option (list Z) :=
  let n := next_candidate_u64 start in
  let '(primes, n) := if n =? 2 then ([2], 3) else ([], n) in
  generate_loop_u64 tc fuel n primes count.

(** [main]: [argv] holds the program name and the arguments. *)
Definition main (tc : toolchain) (fuel : nat) (argv : list string)
    : option outcome :=
  let start :=
    match argv with
    | _ :: a1 :: _ =>
      match stoull a1 with
      | Value v => inl v
      | Throws _ => inr (Exit 1 [] ["Argument invalide pour start"%string])
      end
    | _ => inl U64_MAX
    end in
  match start with
  | inr stop => Some stop
  | inl start =>
    let count :=
      match argv with
      | _ :: _ :: a2 :: _ => stoull a2
      | _ => Value 100
      end in
    match count with
    | Throws e => Some (Terminate e)
    | Value count =>
      match generate_primes_u64 tc fuel start count with
      | Some primes => Some (Exit 0 primes [])
      | None => None
      end
    end
  end.

End Primes64.

(** ** ComputeBigPrimesCPP.cpp *)

Module BigPrimes.

Definition SMALL_PRIMES : list Z :=
  [2; 3; 5; 7; 11; 13; 17; 19; 23; 29; 31; 37; 41; 43; 47; 53; 59; 61; 67; 71;
   73; 79; 83; 89; 97; 101; 103; 107; 109; 113; 127; 131; 137; 139; 149; 151;
   157; 163; 167; 173; 179; 181; 191; 193; 197; 199; 211; 223; 227; 229; 233;
   239; 241; 251; 257; 263; 269; 271; 277; 281; 283; 293; 307; 311; 313; 317;
   331; 337; 347; 349; 353; 359; 367; 373; 379; 383; 389; 397; 401; 409; 419;
   421; 431; 433; 439; 443; 449; 457; 461; 463; 467; 479; 487; 491; 499].

(** [%] of cpp_int truncates towards zero: [Z.rem]. *)
Definition mulmod (a b md : Z) : Z := Z.rem (a * b) md.

Fixpoint powmod_loop (fuel : nat) (res base exp md : Z) : Z :=
  match fuel with
  | O => res
  | S fuel' =>
    if exp >? 0 then
      let res' := if negb (Z.land exp 1 =? 0) then mulmod res base md else res in
      powmod_loop fuel' res' (mulmod base base md) (Z.shiftr exp 1) md
    else res
  end.

(** One turn of the loop per bit of [exp]. *)
Definition bit_length (x : Z) : nat := Z.to_nat (Z.log2 x + 1).

Definition powmod (base exp md : Z) : Z :=
  powmod_loop (bit_length exp) (Z.rem 1 md) (Z.rem base md) exp md.

(** [unsigned s]: 32 bits, [++s] wraps. *)
Definition two32 : Z := Eval cbv in 2 ^ 32.
Definition wrap32 (x : Z) : Z := x mod two32.

Fixpoint decompose_loop (fuel : nat) (d s : Z) : Z * Z :=
  match fuel with
  | O => (d, s)
  | S fuel' =>
    if Z.land d 1 =? 0 then decompose_loop fuel' (Z.shiftr d 1) (wrap32 (s + 1))
    else (d, s)
  end.

Definition decompose (n : Z) : Z * Z :=
  decompose_loop (bit_length (n - 1)) (n - 1) 0.

Fixpoint trial_division (ps : list Z) (n : Z) : option bool :=
  match ps with
  | [] => None
  | p :: ps' =>
    if n =? p then Some true
    else if Z.rem n p =? 0 then Some false
    else trial_division ps' n
  end.

(** The random engine behind [dist64(rng)]: a draw returns a value of
    [2, 2^64 - 1] and the next state of the engine. *)
Class Dist64 (engine : Type) : Type := {
  dist64 : engine -> Z * engine;
  dist64_range : forall g, 2 <= fst (dist64 g) <= U64_MAX
}.

Section WithEngine.

Context {engine : Type} {D : Dist64 engine}.

(** [for (size_t i = 0; i < limbs; ++i) { a <<= 64; a += dist64(rng); }] *)
Fixpoint fill_limbs (limbs : nat) (a : Z) (g : engine) : Z * engine :=
  match limbs with
  | O => (a, g)
  | S limbs' =>
    let '(w, g') := dist64 g in
    fill_limbs limbs' (Z.shiftl a 64 + w) g'
  end.

Definition random_base (limit_minus_two : Z) (g : engine) : Z * engine :=
  if limit_minus_two <=? 2 then (2, g) else
  let msb_index := Z.log2 limit_minus_two in
  let bits := msb_index + 1 in
  let limbs := (bits + 63) / 64 in
  let '(a, g') := fill_limbs (Z.to_nat limbs) 0 g in
  let a := if a <=? 1 then a + 2 else a in
  let a := Z.rem a (limit_minus_two - 1) in
  (a + 2, g').

(** [for (unsigned r = 1; r < s; ++r)]: the value of [passed] after the loop. *)
Fixpoint square_loop (fuel : nat) (r s x n : Z) : bool :=
  match fuel with
  | O => false
  | S fuel' =>
    if r <? s then
      let x' := mulmod x x n in
      if x' =? n - 1 then true else square_loop fuel' (r + 1) s x' n
    else false
  end.

(** [for (int t = 0; t < rounds; ++t)] *)
Fixpoint rounds_loop (rounds : nat) (n d s : Z) (g : engine) : bool * engine :=
  match rounds with
  | O => (true, g)
  | S rounds' =>
    let '(a, g') := random_base (n - 2) g in
    let x := powmod a d n in
    if (x =? 1) || (x =? n - 1) then rounds_loop rounds' n d s g' else
    if square_loop (Z.to_nat s) 1 s x n then rounds_loop rounds' n d s g'
    else (false, g')
  end.

(** [g] is the engine the test draws from: [*rng_ptr], or the local engine
    when [rng_ptr] is null. *)
Definition miller_rabin (n rounds : Z) (g : engine) : bool * engine :=
  if n <? 2 then (false, g) else
  match trial_division SMALL_PRIMES n with
  | Some b => (b, g)
  | None =>
    let '(d, s) := decompose n in
    rounds_loop (Z.to_nat rounds) n d s g
  end.

Definition is_prime (n : Z) (g : engine) : bool * engine :=
  if n <? 2 then (false, g) else
  match trial_division SMALL_PRIMES n with
  | Some b => (b, g)
  | None => miller_rabin n 32 g
  end.

(** [while (true) { if (n % 3 != 0 && n % 5 != 0) return n; n += 2; }] *)
Fixpoint wheel_loop (fuel : nat) (n : Z) : Z :=
  match fuel with
  | O => n
  | S fuel' =>
    if negb (Z.rem n 3 =? 0) && negb (Z.rem n 5 =? 0) then n
    else wheel_loop fuel' (n + 2)
  end.

Definition next_candidate (n : Z) : Z :=
  if n <=? 2 then 2 else
  let n := if Z.land n 1 =? 0 then n + 1 else n in
  wheel_loop 3 n.

Fixpoint generate_loop (fuel : nat) (n : Z) (primes : list Z) (count : Z)
    (g : engine) : option (list Z) :=
  match fuel with
  | O => None
  | S fuel' =>
    if Z.of_nat (length primes) <? count then
      let '(b, g') := is_prime n g in
      generate_loop fuel' (n + 2) (if b then primes ++ [n] else primes) count g'
    else Some primes
  end.

(** [g] is the engine seeded from [std::random_device].
    [primes.reserve(count)] is left out, as in the 64-bit program: the model
    describes the runs in which the vector is allocated. *)
Definition generate_primes (fuel : nat) (start count : Z) (g : engine)
    : option (list Z) :=
  let n := next_candidate start in
  let '(primes, n) := if n =? 2 then ([2], 3) else ([], n) in
  generate_loop fuel n primes count g.

(** [main]: [extracted] is what [iss >> start] leaves for [argv[1]]: the
    value read, or [None] when the stream fails. *)
Definition main (fuel : nat) (g : engine) (argv : list string)
    (extracted : option Z) : option outcome :=
  let start :=
    match argv with
    | _ :: _ :: _ =>
      match extracted with
      | Some v => inl v
      | None => inr (Exit 1 [] ["Impossible de lire l'entier de départ."%string])
      end
    | _ => inl 18446744073713598463
    end in
  match start with
  | inr stop => Some stop
  | inl start =>
    let how_many :=
      match argv with
      | _ :: _ :: a2 :: _ => stoull a2
      | _ => Value 100
      end in
    match how_many with
    | Throws e => Some (Terminate e)
    | Value how_many =>
      match generate_primes fuel start how_many g with
      | Some primes => Some (Exit 0 primes [])
      | None => None
      end
    end
  end.

End WithEngine.

End BigPrimes.

(** * Verification *)

(** ** Arithmetic shared by the loops *)

Section Arith.

Lemma land_1_mod x : Z.land x 1 = x mod 2.
Proof. change 1 with (Z.ones 1) at 1. rewrite Z.land_ones by lia. reflexivity. Qed.

Lemma shiftr_1_div x : Z.shiftr x 1 = x / 2.
Proof. rewrite Z.shiftr_div_pow2 by lia. reflexivity. Qed.

Lemma half_lt_pow2 x (k : nat) :
  0 <= x < 2 ^ Z.of_nat (S k) -> 0 <= x / 2 < 2 ^ Z.of_nat k.
Proof.
  intros H. rewrite Nat2Z.inj_succ, Z.pow_succ_r in H by lia.
  split; [apply Z.div_pos; lia | apply Z.div_lt_upper_bound; lia].
Qed.

Lemma lt_pow2_bit_length x : 0 <= x -> x < 2 ^ Z.of_nat (BigPrimes.bit_length x).
Proof.
  intros H. unfold BigPrimes.bit_length.
  destruct (Z.eq_dec x 0) as [->|Hx]; [reflexivity|].
  rewrite Z2Nat.id by (pose proof (Z.log2_nonneg x); lia).
  replace (Z.log2 x + 1) with (Z.succ (Z.log2 x)) by lia.
  apply Z.log2_spec. lia.
Qed.

(** a^(2q + r) through the square of a *)
Lemma pow_split a e : 0 <= e -> a ^ e = (a * a) ^ (e / 2) * a ^ (e mod 2).
Proof.
  intros H. rewrite <- Z.pow_2_r, <- Z.pow_mul_r, <- Z.pow_add_r.
  - f_equal. apply Z.div_mod. lia.
  - apply Z.mul_nonneg_nonneg; [lia | apply Z.div_pos; lia].
  - apply Z.mod_pos_bound. lia.
  - lia.
  - apply Z.div_pos; lia.
Qed.

End Arith.

(** ** [powmod] is the modular power *)

Lemma powmod_loop_spec fuel : forall res base exp md,
  0 < md -> 0 <= res < md -> 0 <= base ->
  0 <= exp < 2 ^ Z.of_nat fuel ->
  BigPrimes.powmod_loop fuel res base exp md = (res * base ^ exp) mod md.
Proof.
  induction fuel as [|fuel IH]; intros res base exp md Hmd Hres Hbase Hexp.
  - simpl in *. assert (exp = 0) by lia. subst.
    rewrite Z.pow_0_r, Z.mul_1_r, Z.mod_small; lia.
  - cbn [BigPrimes.powmod_loop].
    destruct (Z.gtb_spec exp 0) as [E|E].
    + rewrite land_1_mod, shiftr_1_div.
      assert (Hm : 0 <= BigPrimes.mulmod base base md < md).
      { unfold BigPrimes.mulmod. rewrite Z.rem_mod_nonneg by nia.
        apply Z.mod_pos_bound; lia. }
      pose proof (Z.mod_pos_bound exp 2 ltac:(lia)) as Hb.
      rewrite IH; try lia.
      2:{ destruct (exp mod 2 =? 0); simpl; [lia|].
          unfold BigPrimes.mulmod. rewrite Z.rem_mod_nonneg by nia.
          apply Z.mod_pos_bound; lia. }
      2:{ apply half_lt_pow2; lia. }
      rewrite (pow_split base exp) by lia.
      unfold BigPrimes.mulmod. rewrite !Z.rem_mod_nonneg by (try nia; lia).
      rewrite Z.mul_mod, Z.mod_pow_l, <- Z.mul_mod by lia.
      destruct (Z.eqb_spec (exp mod 2) 0) as [E0|E0]; simpl.
      * rewrite E0, Z.pow_0_r. f_equal. ring.
      * assert (E1 : exp mod 2 = 1) by lia. rewrite E1, Z.pow_1_r.
        rewrite Z.mul_mod, Z.mod_mod, <- Z.mul_mod by lia. f_equal. ring.
    + assert (exp = 0) by lia. subst.
      rewrite Z.pow_0_r, Z.mul_1_r, Z.mod_small; lia.
Qed.

Lemma powmod_spec base exp md :
  0 <= base -> 0 <= exp -> 1 <= md ->
  BigPrimes.powmod base exp md = base ^ exp mod md.
Proof.
  intros Hb He Hm. unfold BigPrimes.powmod.
  rewrite !Z.rem_mod_nonneg by lia.
  rewrite powmod_loop_spec; try lia.
  - rewrite Z.mul_mod, Z.mod_mod, Z.mod_pow_l, <- Z.mul_mod by lia.
    f_equal. ring.
  - apply Z.mod_pos_bound; lia.
  - apply Z.mod_pos_bound; lia.
  - split; [lia | apply lt_pow2_bit_length; lia].
Qed.

(** ** Square roots of 1 modulo a prime, and the Miller-Rabin chain *)

Lemma sqrt_one_mod_prime p y :
  Z.prime p -> 0 <= y < p -> (y * y) mod p = 1 -> y = 1 \/ y = p - 1.
Proof.
  intros Hp Hy H.
  pose proof (Z.prime_ge_2 _ Hp) as Hp2.
  assert (Hd : (p | (y - 1) * (y + 1))).
  { exists (y * y / p). pose proof (Z.div_mod (y * y) p ltac:(lia)). lia. }
  apply Z.divide_prime_mul in Hd; [|assumption].
  destruct Hd as [[q Hq]|[q Hq]].
  - left. assert (q = 0) by nia. lia.
  - right. assert (q = 1) by nia. lia.
Qed.

Lemma pow_two_succ a d r :
  0 <= d -> 0 <= r ->
  a ^ (d * 2 ^ (r + 1)) = a ^ (d * 2 ^ r) * a ^ (d * 2 ^ r).
Proof.
  intros Hd Hr. rewrite Z.pow_add_r, Z.pow_1_r by lia.
  rewrite <- Z.pow_add_r by (pose proof (Z.pow_nonneg 2 r); nia).
  f_equal. ring.
Qed.

(** The chain a^d, a^(2d), a^(4d), ... modulo a prime: once it reaches 1 it
    started at 1 or passed through p - 1. *)
Lemma mr_chain_aux p a d (j : nat) :
  Z.prime p -> 0 <= d ->
  a ^ (d * 2 ^ Z.of_nat j) mod p = 1 ->
  a ^ d mod p = 1 \/
  exists r, 0 <= r < Z.of_nat j /\ a ^ (d * 2 ^ r) mod p = p - 1.
Proof.
  intros Hp Hd. pose proof (Z.prime_ge_2 _ Hp) as Hp2.
  induction j as [|j IH]; intros H.
  - left. simpl in H. rewrite Z.mul_1_r in H. exact H.
  - rewrite Nat2Z.inj_succ in H. unfold Z.succ in H.
    rewrite pow_two_succ, Z.mul_mod in H by lia.
    apply sqrt_one_mod_prime in H; [|assumption|apply Z.mod_pos_bound; lia].
    destruct H as [H|H].
    + destruct (IH H) as [H1|[r [Hr H1]]]; [left; exact H1|].
      right. exists r. split; [lia|exact H1].
    + right. exists (Z.of_nat j). split; [lia|exact H].
Qed.

Lemma mr_chain p a d s :
  Z.prime p -> a mod p <> 0 -> 0 <= d -> 0 <= s -> p - 1 = d * 2 ^ s ->
  a ^ d mod p = 1 \/
  exists r, 0 <= r < s /\ a ^ (d * 2 ^ r) mod p = p - 1.
Proof.
  intros Hp Ha Hd Hs E.
  pose proof (Z.fermat_nz p a Hp Ha) as F.
  rewrite E, <- (Z2Nat.id s) in F by lia.
  destruct (mr_chain_aux p a d (Z.to_nat s) Hp Hd F) as [H|[r [Hr H]]].
  - left. exact H.
  - right. exists r. split; [lia|exact H].
Qed.

(** ** Proth's criterion, to certify the primes the runs are made at *)

Lemma prime_divisor_bounded (k : nat) : forall n,
  1 < n <= Z.of_nat k -> exists p, Z.prime p /\ (p | n).
Proof.
  induction k as [|k IH]; intros n Hn; [lia|].
  destruct (prime_dec n) as [Hp|Hp].
  - exists n. split; [apply prime_alt; exact Hp | apply Z.divide_refl].
  - destruct (not_prime_divide n ltac:(lia) Hp) as [m [Hm Hd]].
    destruct (IH m ltac:(lia)) as [p [Hp1 Hp2]].
    exists p. split; [exact Hp1 | eapply Z.divide_trans; eassumption].
Qed.

Lemma prime_divisor n : 1 < n -> exists p, Z.prime p /\ (p | n).
Proof. intros H. apply (prime_divisor_bounded (Z.to_nat n)). lia. Qed.

Lemma minus_one_pow_odd p e :
  2 <= p -> 0 <= e -> e mod 2 = 1 -> (p - 1) ^ e mod p = p - 1.
Proof.
  intros Hp He Ho.
  rewrite <- Z.mod_pow_l.
  replace ((p - 1) mod p) with ((-1) mod p).
  2:{ replace (p - 1) with (-1 + 1 * p) by lia. rewrite Z.mod_add by lia. reflexivity. }
  rewrite Z.mod_pow_l.
  assert (E : (-1) ^ e = -1).
  { change (-1) with (- (1)) at 1. rewrite Z.pow_opp_odd.
    - rewrite Z.pow_1_l by lia. reflexivity.
    - exists (e / 2). pose proof (Z.div_mod e 2 ltac:(lia)). lia. }
  rewrite E. replace (-1) with (p - 1 + (-1) * p) by lia.
  rewrite Z.mod_add by lia. apply Z.mod_small. lia.
Qed.

Lemma power_parity p x t e :
  2 < p -> 0 <= t -> 0 <= e ->
  x ^ t mod p = p - 1 -> x ^ e mod p = 1 -> e mod 2 = 0.
Proof.
  intros Hp Ht He H1 H2.
  pose proof (Z.mod_pos_bound e 2 ltac:(lia)) as Hb.
  destruct (Z.eq_dec (e mod 2) 0) as [E|E]; [exact E|exfalso].
  assert (A : (x ^ t) ^ e mod p = p - 1).
  { rewrite <- Z.mod_pow_l, H1. apply minus_one_pow_odd; lia. }
  assert (B : (x ^ t) ^ e mod p = 1).
  { rewrite <- Z.pow_mul_r, Z.mul_comm, Z.pow_mul_r by lia.
    rewrite <- Z.mod_pow_l, H2, Z.pow_1_l by lia. apply Z.mod_small. lia. }
  lia.
Qed.

Lemma order_two_power p (m : nat) : forall x e,
  2 < p -> 0 <= e ->
  x ^ (2 ^ Z.of_nat m) mod p = p - 1 -> x ^ e mod p = 1 ->
  (2 ^ Z.of_nat (S m) | e).
Proof.
  induction m as [|m IH]; intros x e Hp He H1 H2.
  - pose proof (power_parity p x (2 ^ Z.of_nat 0) e Hp
                  ltac:(apply Z.pow_nonneg; lia) He H1 H2) as Hpar.
    pose proof (Z.div_mod e 2 ltac:(lia)).
    unfold Z.divide. exists (e / 2). change (2 ^ Z.of_nat 1) with 2. lia.
  - pose proof (power_parity p x (2 ^ Z.of_nat (S m)) e Hp
                  ltac:(apply Z.pow_nonneg; lia) He H1 H2) as Hpar.
    pose proof (Z.div_mod e 2 ltac:(lia)) as Hdm.
    assert (Hd : (2 ^ Z.of_nat (S m) | e / 2)).
    { apply (IH (x * x)); try lia.
      - rewrite <- H1, <- Z.pow_2_r, <- Z.pow_mul_r by lia.
        rewrite <- Z.pow_succ_r, <- Nat2Z.inj_succ by lia. reflexivity.
      - rewrite <- H2, <- Z.pow_2_r, <- Z.pow_mul_r by (try apply Z.div_pos; lia).
        do 2 f_equal. lia. }
    destruct Hd as [q Hq]. exists q.
    rewrite (Nat2Z.inj_succ (S m)), Z.pow_succ_r by lia. lia.
Qed.

(** Proth's criterion. *)
Lemma proth N k (m : nat) a :
  0 < k < 2 ^ Z.of_nat (S m) -> N = k * 2 ^ Z.of_nat (S m) + 1 ->
  a ^ (k * 2 ^ Z.of_nat m) mod N = N - 1 ->
  Z.prime N.
Proof.
  intros Hk HN Ha.
  assert (Hpow : 0 < 2 ^ Z.of_nat m) by (apply Z.pow_pos_nonneg; lia).
  assert (Hpow' : 2 ^ Z.of_nat (S m) = 2 * 2 ^ Z.of_nat m).
  { rewrite Nat2Z.inj_succ, Z.pow_succ_r by lia. reflexivity. }
  assert (HN1 : 1 < N) by nia.
  assert (Hdiv : forall p, Z.prime p -> (p | N) -> 2 ^ Z.of_nat (S m) < p).
  { intros p Hp [c Hc]. pose proof (Z.prime_ge_2 _ Hp) as Hp2.
    assert (Hap : a ^ (k * 2 ^ Z.of_nat m) mod p = p - 1).
    { pose proof (Z.div_mod (a ^ (k * 2 ^ Z.of_nat m)) N ltac:(lia)) as Hdm.
      rewrite Ha in Hdm. rewrite Hdm.
      replace (N * (a ^ (k * 2 ^ Z.of_nat m) / N) + (N - 1))
        with (p - 1 + (c * (a ^ (k * 2 ^ Z.of_nat m) / N) + c - 1) * p) by nia.
      rewrite Z.mod_add by lia. apply Z.mod_small. lia. }
    assert (Hp3 : 2 < p).
    { destruct (Z.eq_dec p 2) as [->|]; [exfalso|lia]. nia. }
    assert (Hnz : a mod p <> 0).
    { intros Hz. rewrite <- Z.mod_pow_l, Hz, Z.pow_0_l in Hap by nia.
      rewrite Z.mod_0_l in Hap; lia. }
    pose proof (Z.fermat_nz p a Hp Hnz) as F.
    assert (Hx : (a ^ k) ^ (p - 1) mod p = 1).
    { rewrite <- Z.pow_mul_r, Z.mul_comm, Z.pow_mul_r by lia.
      rewrite <- Z.mod_pow_l, F, Z.pow_1_l by lia. apply Z.mod_small. lia. }
    assert (Hx1 : (a ^ k) ^ (2 ^ Z.of_nat m) mod p = p - 1).
    { rewrite <- Z.pow_mul_r by lia. exact Hap. }
    destruct (order_two_power p m (a ^ k) (p - 1) Hp3 ltac:(lia) Hx1 Hx) as [q Hq].
    assert (0 < q) by nia. nia. }
  split; [exact HN1|].
  intros n Hn [c Hc].
  assert (Hc1 : 1 < c) by nia.
  destruct (prime_divisor n ltac:(lia)) as [p1 [Hp1 Hd1]].
  destruct (prime_divisor c Hc1) as [p2 [Hp2 Hd2]].
  pose proof (Hdiv p1 Hp1 ltac:(eapply Z.divide_trans; [exact Hd1|exists c; lia])).
  pose proof (Hdiv p2 Hp2 ltac:(eapply Z.divide_trans; [exact Hd2|exists n; lia])).
  pose proof (Z.divide_pos_le p1 n ltac:(lia) Hd1).
  pose proof (Z.divide_pos_le p2 c ltac:(lia) Hd2).
  nia.
Qed.

(** ** The unbounded test accepts every prime *)

Module BigFacts.
Import BigPrimes.

Lemma decompose_loop_spec fuel : forall d0 s0 d s,
  0 < d0 < 2 ^ Z.of_nat fuel -> 0 <= s0 -> s0 + Z.log2 d0 < two32 ->
  decompose_loop fuel d0 s0 = (d, s) ->
  d mod 2 = 1 /\ 0 < d /\ s0 <= s <= s0 + Z.log2 d0 /\ d0 = d * 2 ^ (s - s0).
Proof.
  induction fuel as [|fuel IH]; intros d0 s0 d s Hd Hs Hw E.
  - simpl in Hd. lia.
  - cbn [decompose_loop] in E. rewrite land_1_mod, shiftr_1_div in E.
    pose proof (Z.mod_pos_bound d0 2 ltac:(lia)) as Hb.
    pose proof (Z.div_mod d0 2 ltac:(lia)) as Hdm.
    destruct (Z.eqb_spec (d0 mod 2) 0) as [E0|E0].
    + assert (Hh : 0 < d0 / 2) by lia.
      assert (Hl : Z.log2 d0 = Z.succ (Z.log2 (d0 / 2))).
      { rewrite <- Z.log2_double by lia. f_equal. lia. }
      pose proof (Z.log2_nonneg (d0 / 2)) as Hn.
      assert (Ew : wrap32 (s0 + 1) = s0 + 1).
      { unfold wrap32. apply Z.mod_small. lia. }
      rewrite Ew in E.
      apply IH in E; try lia.
      2:{ split; [lia|]. apply half_lt_pow2. lia. }
      destruct E as (E1 & E2 & E3 & E4).
      repeat split; try lia.
      replace (s - s0) with (Z.succ (s - (s0 + 1))) by lia.
      rewrite Z.pow_succ_r by lia. lia.
    + inversion E; subst. rewrite Z.sub_diag, Z.pow_0_r.
      pose proof (Z.log2_nonneg d). repeat split; lia.
Qed.

Lemma decompose_spec n d s :
  2 <= n -> Z.log2 n < two32 -> decompose n = (d, s) ->
  d mod 2 = 1 /\ 0 < d /\ 0 <= s /\ n - 1 = d * 2 ^ s.
Proof.
  intros Hn Hl E. unfold decompose in E.
  apply decompose_loop_spec in E.
  - rewrite Z.sub_0_r in E. intuition lia.
  - split; [lia | apply lt_pow2_bit_length; lia].
  - lia.
  - pose proof (Z.log2_le_mono (n - 1) n ltac:(lia)). lia.
Qed.

Lemma trial_division_prime ps n :
  Z.prime n -> Forall (fun p => 1 < p) ps -> trial_division ps n <> Some false.
Proof.
  intros Hn Hps. induction Hps as [|p ps Hp Hps IH]; simpl; [discriminate|].
  destruct (Z.eqb_spec n p) as [E|E]; [discriminate|].
  destruct (Z.eqb_spec (Z.rem n p) 0) as [E0|E0]; [|exact IH].
  exfalso. destruct Hn as [Hn1 Hn2].
  assert (Hd : (p | n)).
  { exists (Z.quot n p). pose proof (Z.quot_rem n p ltac:(lia)). lia. }
  apply (Hn2 p); [|exact Hd].
  pose proof (Z.divide_pos_le p n ltac:(lia) Hd). lia.
Qed.

Lemma trial_division_none ps n :
  trial_division ps n = None -> Forall (fun p => n <> p /\ Z.rem n p <> 0) ps.
Proof.
  induction ps as [|p ps IH]; simpl; intros H; [constructor|].
  destruct (Z.eqb_spec n p) as [E|E]; [discriminate|].
  destruct (Z.eqb_spec (Z.rem n p) 0) as [E0|E0]; [discriminate|].
  constructor; auto.
Qed.

Lemma SMALL_PRIMES_gt_1 : Forall (fun p => 1 < p) SMALL_PRIMES.
Proof. apply Forall_forall. intros p Hp. 
  assert (H : forallb (fun p => 1 <? p) SMALL_PRIMES = true) by (vm_compute; reflexivity).
  rewrite forallb_forall in H. apply Z.ltb_lt, H, Hp.
Qed.

Section WithEngine.
Context {engine : Type} {D : Dist64 engine}.

Lemma fill_limbs_nonneg k : forall a g, 0 <= a -> 0 <= fst (fill_limbs k a g).
Proof.
  induction k as [|k IH]; intros a g Ha; cbn [fill_limbs]; [exact Ha|].
  pose proof (dist64_range g) as Hr. destruct (dist64 g) as [w g']. cbn [fst] in Hr.
  apply IH. pose proof (proj2 (Z.shiftl_nonneg a 64) Ha). lia.
Qed.

Lemma random_base_range limit g :
  2 < limit -> 2 <= fst (random_base limit g) <= limit.
Proof.
  intros Hl. unfold random_base.
  destruct (Z.leb_spec limit 2) as [E|E]; [lia|].
  pose proof (fill_limbs_nonneg (Z.to_nat ((Z.log2 limit + 1 + 63) / 64)) 0 g
                ltac:(lia)) as Hf.
  destruct (fill_limbs _ 0 g) as [a g']. simpl in Hf. simpl.
  assert (Ha : 0 <= (if a <=? 1 then a + 2 else a)) by (destruct (a <=? 1); lia).
  pose proof (Z.rem_bound_pos _ (limit - 1) Ha ltac:(lia)). lia.
Qed.

Lemma mulmod_mod x n : 0 <= x -> 0 < n -> mulmod x x n = (x * x) mod n.
Proof. intros. unfold mulmod. apply Z.rem_mod_nonneg; nia. Qed.

(** The squaring loop finds n - 1 when the chain of a holds it at an index
    the loop still has to visit. *)
Lemma square_loop_true n a d s fuel : forall r x,
  0 < n -> 0 <= d -> 1 <= r ->
  x = a ^ (d * 2 ^ (r - 1)) mod n ->
  (exists r', r <= r' < s /\ a ^ (d * 2 ^ r') mod n = n - 1) ->
  s - r <= Z.of_nat fuel ->
  square_loop fuel r s x n = true.
Proof.
  induction fuel as [|fuel IH]; intros r x Hn Hd Hr Hx [r' [Hr' H]] Hf.
  - simpl in Hf. lia.
  - cbn [square_loop].
    destruct (Z.ltb_spec r s) as [E|E]; [|lia].
    assert (Hx' : mulmod x x n = a ^ (d * 2 ^ r) mod n).
    { assert (0 <= x) by (subst x; apply Z.mod_pos_bound; lia).
      rewrite mulmod_mod by lia.
      subst x. rewrite <- Z.mul_mod by lia.
      rewrite <- pow_two_succ by lia.
      replace (r - 1 + 1) with r by lia. reflexivity. }
    destruct (Z.eqb_spec (mulmod x x n) (n - 1)) as [E1|E1]; [reflexivity|].
    apply IH; try lia.
    + rewrite Hx'. replace (r + 1 - 1) with r by lia. reflexivity.
    + exists r'. split; [|exact H].
      assert (r' <> r) by (intros ->; congruence). lia.
Qed.

Lemma rounds_loop_prime n d s rounds : forall g,
  Z.prime n -> 5 <= n -> 0 < d -> 0 <= s -> n - 1 = d * 2 ^ s ->
  fst (rounds_loop rounds n d s g) = true.
Proof.
  intros g Hp Hn Hd Hs E. revert g.
  induction rounds as [|rounds IH]; intros g; [reflexivity|].
  cbn [rounds_loop].
  pose proof (random_base_range (n - 2) g ltac:(lia)) as Ha.
  destruct (random_base (n - 2) g) as [a g']. simpl in Ha.
  rewrite powmod_spec by lia.
  destruct (mr_chain n a d s Hp) as [H|[r [Hr H]]]; try lia.
  { rewrite Z.mod_small; lia. }
  - rewrite H. simpl. apply IH.
  - destruct (Z.eq_dec r 0) as [->|Hr0].
    + rewrite Z.pow_0_r, Z.mul_1_r in H. rewrite H, Z.eqb_refl, orb_true_r. apply IH.
    + destruct (_ || _); [apply IH|].
      rewrite (square_loop_true n a d s (Z.to_nat s) 1); try lia.
      * apply IH.
      * rewrite Z.sub_diag, Z.pow_0_r, Z.mul_1_r. reflexivity.
      * exists r. split; [lia|exact H].
Qed.

Lemma miller_rabin_prime n rounds g :
  Z.prime n -> Z.log2 n < two32 -> fst (miller_rabin n rounds g) = true.
Proof.
  intros Hp Hl. pose proof (Z.prime_ge_2 _ Hp) as H2.
  unfold miller_rabin.
  destruct (Z.ltb_spec n 2) as [E|E]; [lia|].
  pose proof (trial_division_prime SMALL_PRIMES n Hp SMALL_PRIMES_gt_1) as Ht.
  destruct (trial_division SMALL_PRIMES n) as [[|]|] eqn:T;
    [reflexivity | congruence |].
  apply trial_division_none in T.
  assert (H5 : 5 <= n).
  { unfold SMALL_PRIMES in T.
    inversion T as [|? ? [T2 T2'] T']; subst.
    inversion T' as [|? ? [T3 T3'] T'']; subst.
    destruct (Z.eq_dec n 4) as [->|]; [exfalso; apply T2'; reflexivity|lia]. }
  destruct (decompose n) as [d s] eqn:Ed.
  apply decompose_spec in Ed; [|lia|assumption].
  destruct Ed as (_ & Hd & Hs & Ed).
  apply rounds_loop_prime; assumption.
Qed.

Lemma is_prime_prime n g :
  Z.prime n -> Z.log2 n < two32 -> fst (is_prime n g) = true.
Proof.
  intros Hp Hl. unfold is_prime.
  pose proof (Z.prime_ge_2 _ Hp) as H2.
  destruct (Z.ltb_spec n 2) as [E|E]; [lia|].
  pose proof (trial_division_prime SMALL_PRIMES n Hp SMALL_PRIMES_gt_1) as Ht.
  destruct (trial_division SMALL_PRIMES n) as [[|]|] eqn:T;
    [reflexivity | congruence |].
  apply miller_rabin_prime; assumption.
Qed.

End WithEngine.

End BigFacts.

(** ** The 64-bit program: arithmetic and the primality test *)

Module Primes64Facts.
Import Primes64.

Lemma wrap64_small x : 0 <= x < two64 -> wrap64 x = x.
Proof. intros H. unfold wrap64. apply Z.mod_small. exact H. Qed.

(** *** The fuel of the bit loops suffices *)

Lemma mul_mod_loop_fuel fuel k : forall result base bb md,
  0 <= bb < 2 ^ Z.of_nat fuel ->
  mul_mod_loop (fuel + k) result base bb md = mul_mod_loop fuel result base bb md.
Proof.
  induction fuel as [|fuel IH]; intros result base bb md Hbb.
  - simpl in Hbb. assert (bb = 0) by lia. subst. destruct k; reflexivity.
  - cbn [Nat.add mul_mod_loop].
    destruct (bb =? 0); [reflexivity|].
    apply IH. rewrite shiftr_1_div. apply half_lt_pow2. exact Hbb.
Qed.

Lemma pow_mod_loop_fuel tc fuel k : forall res a d md,
  0 <= d < 2 ^ Z.of_nat fuel ->
  pow_mod_loop tc (fuel + k) res a d md = pow_mod_loop tc fuel res a d md.
Proof.
  induction fuel as [|fuel IH]; intros res a d md Hd.
  - simpl in Hd. assert (d = 0) by lia. subst. destruct k; reflexivity.
  - cbn [Nat.add pow_mod_loop].
    destruct (d =? 0); [reflexivity|].
    apply IH. rewrite shiftr_1_div. apply half_lt_pow2. exact Hd.
Qed.

Lemma decompose_loop_u64_fuel fuel k : forall d s,
  0 < d < 2 ^ Z.of_nat fuel ->
  decompose_loop_u64 (fuel + k) d s = decompose_loop_u64 fuel d s.
Proof.
  induction fuel as [|fuel IH]; intros d s Hd.
  - simpl in Hd. lia.
  - cbn [Nat.add decompose_loop_u64]. rewrite land_1_mod.
    destruct (Z.eqb_spec (d mod 2) 0) as [E|E]; [|reflexivity].
    rewrite shiftr_1_div. apply IH.
    pose proof (Z.div_mod d 2 ltac:(lia)).
    pose proof (half_lt_pow2 d fuel ltac:(lia)). lia.
Qed.

Lemma square_loop_u64_fuel tc fuel k : forall r s x n,
  s - r <= Z.of_nat fuel ->
  square_loop_u64 tc (fuel + k) r s x n = square_loop_u64 tc fuel r s x n.
Proof.
  induction fuel as [|fuel IH]; intros r s x n H.
  - destruct k; [reflexivity|]. cbn [Nat.add square_loop_u64].
    destruct (Z.ltb_spec r s); [lia|reflexivity].
  - cbn [Nat.add square_loop_u64].
    destruct (Z.ltb_spec r s); [|reflexivity].
    destruct (_ =? _); [reflexivity|]. apply IH. lia.
Qed.

Lemma skip3_loop_fuel k n :
  0 <= n < two64 -> n mod 2 = 1 ->
  skip3_loop (2 + k) n = skip3_loop 2 n.
Proof.
  intros Hn Ho. cbn [Nat.add skip3_loop].
  destruct (Z.eqb_spec (n mod 3) 0) as [E|E]; [|reflexivity].
  assert (H : wrap64 (n + 2) mod 3 <> 0).
  { unfold wrap64, two64 in *.
    destruct (Z.eq_dec n 18446744073709551615) as [->|Hne]; [vm_compute; discriminate|].
    rewrite (Z.mod_small (n + 2) 18446744073709551616).
    - pose proof (Z.div_mod n 3 ltac:(lia)).
      pose proof (Z.div_mod (n + 2) 3 ltac:(lia)).
      pose proof (Z.mod_pos_bound (n + 2) 3 ltac:(lia)). lia.
    - pose proof (Z.div_mod n 2 ltac:(lia)). lia. }
  destruct (Z.eqb_spec (wrap64 (n + 2) mod 3) 0) as [E'|E']; [contradiction|].
  destruct k; cbn [skip3_loop]; destruct (Z.eqb_spec (wrap64 (n + 2) mod 3) 0);
    try contradiction; reflexivity.
Qed.

(** *** The two bodies of [mul_mod] *)

Lemma mul_mod_gnu_spec a b md :
  0 <= a < two64 -> 0 <= b < two64 -> 0 < md < two64 ->
  mul_mod GNU a b md = (a * b) mod md.
Proof.
  intros Ha Hb Hm. unfold mul_mod, wrap128.
  assert (H128 : two128 = two64 * two64) by reflexivity.
  rewrite (Z.mod_small (a * b)) by nia.
  apply wrap64_small.
  pose proof (Z.mod_pos_bound (a * b) md ltac:(lia)). lia.
Qed.

Lemma mul_mod_loop_spec md fuel : forall result base bb,
  0 < md <= 2 ^ 63 -> 0 <= result < md -> 0 <= base < md ->
  0 <= bb < 2 ^ Z.of_nat fuel ->
  mul_mod_loop fuel result base bb md = (result + base * bb) mod md.
Proof.
  induction fuel as [|fuel IH]; intros result base bb Hmd Hr Hb Hbb.
  - simpl in Hbb. assert (bb = 0) by lia. subst. simpl.
    rewrite Z.mul_0_r, Z.add_0_r, Z.mod_small; lia.
  - cbn [mul_mod_loop]. rewrite land_1_mod, shiftr_1_div.
    destruct (Z.eqb_spec bb 0) as [E|E].
    { subst. rewrite Z.mul_0_r, Z.add_0_r, Z.mod_small; lia. }
    assert (H63 : 2 ^ 63 + 2 ^ 63 = two64) by reflexivity.
    pose proof (Z.div_mod bb 2 ltac:(lia)) as Hdm.
    pose proof (Z.mod_pos_bound bb 2 ltac:(lia)) as Hb2.
    set (result' := if bb mod 2 =? 0 then result else _).
    assert (Er : result' = (result + base * (bb mod 2)) mod md).
    { subst result'. destruct (Z.eqb_spec (bb mod 2) 0) as [E0|E0].
      - rewrite E0, Z.mul_0_r, Z.add_0_r, Z.mod_small; lia.
      - replace (bb mod 2) with 1 by lia. rewrite Z.mul_1_r.
        rewrite wrap64_small by lia.
        destruct ((result + base <? result) || (result + base >=? md));
          [apply Z.mod_mod; lia|reflexivity]. }
    clearbody result'.
    set (base' := if bb / 2 =? 0 then base else _).
    assert (Hr' : 0 <= result' < md) by (rewrite Er; apply Z.mod_pos_bound; lia).
    assert (Eb : 0 <= base' < md /\
                 (base' * (bb / 2)) mod md = (2 * base * (bb / 2)) mod md).
    { subst base'. destruct (Z.eqb_spec (bb / 2) 0) as [E0|E0].
      - rewrite E0, !Z.mul_0_r. split; [lia|reflexivity].
      - rewrite (wrap64_small (base + base)) by lia.
        rewrite Z.sub_diag.
        replace (wrap64 0) with 0 by reflexivity.
        destruct (Z.geb_spec (base + base) md) as [G|G]; cbn [orb].
        + split; [apply Z.mod_pos_bound; lia|].
          rewrite Z.mul_mod_idemp_l by lia. f_equal. ring.
        + destruct (Z.ltb_spec (base + base) 0) as [L|L]; [lia|].
          split; [lia|]. f_equal. ring. }
    destruct Eb as [Hb' Eb].
    rewrite IH; try lia.
    2:{ apply half_lt_pow2. exact Hbb. }
    rewrite Z.add_mod, Eb, Er, Z.mod_mod, <- Z.add_mod by lia.
    f_equal. rewrite Hdm at 3. ring.
Qed.

Lemma mul_mod_msvc_spec a b md :
  0 <= a -> 0 <= b < two64 -> 0 < md <= 2 ^ 63 ->
  mul_mod MSVC a b md = (a * b) mod md.
Proof.
  intros Ha Hb Hm. unfold mul_mod.
  rewrite mul_mod_loop_spec; try lia.
  - rewrite Z.mod_mod, Z.add_0_l, Z.mul_mod_idemp_l by lia. reflexivity.
  - apply Z.mod_pos_bound; lia.
  - exact Hb.
Qed.

(** [mul_mod] is exact with the 128-bit body, and with the doubling loop as
    long as the modulus does not exceed 2^63. *)
Definition exact (tc : toolchain) (md : Z) : Prop := tc = GNU \/ md <= 2 ^ 63.

Lemma mul_mod_exact tc a b md :
  exact tc md -> 0 <= a < two64 -> 0 <= b < two64 -> 0 < md < two64 ->
  mul_mod tc a b md = (a * b) mod md.
Proof.
  intros [->|H] Ha Hb Hm.
  - apply mul_mod_gnu_spec; assumption.
  - destruct tc; [apply mul_mod_msvc_spec; lia | apply mul_mod_gnu_spec; assumption].
Qed.

Lemma pow_mod_loop_spec tc md fuel : forall res a d,
  exact tc md -> 0 < md < two64 -> 0 <= res < md -> 0 <= a < md ->
  0 <= d < 2 ^ Z.of_nat fuel ->
  pow_mod_loop tc fuel res a d md = (res * a ^ d) mod md.
Proof.
  induction fuel as [|fuel IH]; intros res a d Hx Hmd Hres Ha Hd.
  - simpl in Hd. assert (d = 0) by lia. subst. simpl.
    rewrite Z.mul_1_r, Z.mod_small; lia.
  - cbn [pow_mod_loop]. rewrite land_1_mod, shiftr_1_div.
    destruct (Z.eqb_spec d 0) as [E|E].
    { subst. rewrite Z.pow_0_r, Z.mul_1_r, Z.mod_small; lia. }
    pose proof (Z.mod_pos_bound d 2 ltac:(lia)) as Hb.
    rewrite !mul_mod_exact by (try assumption; lia).
    rewrite IH; try assumption.
    + rewrite (pow_split a d) by lia.
      rewrite Z.mul_mod, Z.mod_pow_l, <- Z.mul_mod by lia.
      destruct (Z.eqb_spec (d mod 2) 0) as [E0|E0].
      * rewrite E0, Z.pow_0_r. f_equal. ring.
      * replace (d mod 2) with 1 by lia. rewrite Z.pow_1_r.
        rewrite Z.mul_mod, Z.mod_mod, <- Z.mul_mod by lia. f_equal. ring.
    + destruct (d mod 2 =? 0); [lia | apply Z.mod_pos_bound; lia].
    + apply Z.mod_pos_bound; lia.
    + apply half_lt_pow2. exact Hd.
Qed.

Lemma pow_mod_spec tc a d md :
  exact tc md -> 2 <= md < two64 -> 0 <= d < two64 ->
  pow_mod tc a d md = a ^ d mod md.
Proof.
  intros Hx Hmd Hd. unfold pow_mod.
  rewrite pow_mod_loop_spec; try assumption; try lia.
  - rewrite Z.mul_1_l. apply Z.mod_pow_l.
  - apply Z.mod_pos_bound; lia.
Qed.

Lemma trial_division_u64_prime ps n :
  Z.prime n -> Forall (fun p => 1 < p) ps -> trial_division_u64 ps n <> Some false.
Proof.
  intros Hn Hps. induction Hps as [|p ps Hp Hps IH]; simpl; [discriminate|].
  destruct (Z.eqb_spec n p) as [E|E]; [discriminate|].
  destruct (Z.eqb_spec (n mod p) 0) as [E0|E0]; [|exact IH].
  exfalso. destruct Hn as [Hn1 Hn2].
  assert (Hd : (p | n)).
  { exists (n / p). pose proof (Z.div_mod n p ltac:(lia)). lia. }
  apply (Hn2 p); [|exact Hd].
  pose proof (Z.divide_pos_le p n ltac:(lia) Hd). lia.
Qed.

Lemma trial_division_u64_none ps n :
  trial_division_u64 ps n = None -> Forall (fun p => n <> p /\ n mod p <> 0) ps.
Proof.
  induction ps as [|p ps IH]; simpl; intros H; [constructor|].
  destruct (Z.eqb_spec n p) as [E|E]; [discriminate|].
  destruct (Z.eqb_spec (n mod p) 0) as [E0|E0]; [discriminate|].
  constructor; auto.
Qed.

Lemma small_primes_gt_1 : Forall (fun p => 1 < p) small_primes.
Proof. unfold small_primes. repeat constructor. Qed.

Lemma decompose_loop_u64_spec fuel : forall d0 s0 d s,
  0 < d0 < 2 ^ Z.of_nat fuel -> 0 <= s0 ->
  decompose_loop_u64 fuel d0 s0 = (d, s) ->
  d mod 2 = 1 /\ 0 < d /\ s0 <= s /\ d0 = d * 2 ^ (s - s0).
Proof.
  induction fuel as [|fuel IH]; intros d0 s0 d s Hd Hs E.
  - simpl in Hd. lia.
  - cbn [decompose_loop_u64] in E. rewrite land_1_mod, shiftr_1_div in E.
    pose proof (Z.mod_pos_bound d0 2 ltac:(lia)) as Hb.
    pose proof (Z.div_mod d0 2 ltac:(lia)) as Hdm.
    destruct (Z.eqb_spec (d0 mod 2) 0) as [E0|E0].
    + apply IH in E; try lia.
      2:{ split; [lia|]. apply half_lt_pow2. lia. }
      destruct E as (E1 & E2 & E3 & E4).
      repeat split; try lia.
      replace (s - s0) with (Z.succ (s - (s0 + 1))) by lia.
      rewrite Z.pow_succ_r by lia. lia.
    + inversion E; subst. rewrite Z.sub_diag, Z.pow_0_r. repeat split; lia.
Qed.

(** [composite] is reset when the chain of a holds n - 1 at an index the
    loop still has to visit. *)
Lemma square_loop_u64_false tc n a d s fuel : forall r x,
  exact tc n -> 0 < n < two64 -> 0 <= d -> 1 <= r ->
  x = a ^ (d * 2 ^ (r - 1)) mod n ->
  (exists r', r <= r' < s /\ a ^ (d * 2 ^ r') mod n = n - 1) ->
  s - r <= Z.of_nat fuel ->
  square_loop_u64 tc fuel r s x n = false.
Proof.
  induction fuel as [|fuel IH]; intros r x Hx Hn Hd Hr Ex [r' [Hr' H]] Hf.
  - simpl in Hf. lia.
  - cbn [square_loop_u64].
    destruct (Z.ltb_spec r s) as [E|E]; [|lia].
    assert (Hx' : mul_mod tc x x n = a ^ (d * 2 ^ r) mod n).
    { assert (0 <= x < n) by (subst x; apply Z.mod_pos_bound; lia).
      rewrite mul_mod_exact by (try assumption; lia).
      subst x. rewrite <- Z.mul_mod by lia.
      rewrite <- pow_two_succ by lia.
      replace (r - 1 + 1) with r by lia. reflexivity. }
    destruct (Z.eqb_spec (mul_mod tc x x n) (n - 1)) as [E1|E1]; [reflexivity|].
    apply IH; try assumption; try lia.
    + rewrite Hx'. replace (r + 1 - 1) with r by lia. reflexivity.
    + exists r'. split; [|exact H].
      assert (r' <> r) by (intros ->; congruence). lia.
Qed.

Lemma bases_loop_prime tc n d s bs :
  Z.prime n -> exact tc n -> 3 <= n < two64 -> 0 < d -> 0 <= s ->
  n - 1 = d * 2 ^ s ->
  bases_loop tc bs n d s = true.
Proof.
  intros Hp Hx Hn Hd Hs E.
  assert (Hdn : d < two64).
  { pose proof (Z.pow_pos_nonneg 2 s ltac:(lia) Hs). nia. }
  induction bs as [|a bs IH]; [reflexivity|].
  cbn [bases_loop].
  destruct (Z.eqb_spec (a mod n) 0) as [E0|E0]; [exact IH|].
  rewrite pow_mod_spec by (try assumption; lia).
  destruct (mr_chain n a d s Hp E0) as [H|[r [Hr H]]]; try lia.
  - rewrite H. exact IH.
  - destruct (Z.eq_dec r 0) as [->|Hr0].
    + rewrite Z.pow_0_r, Z.mul_1_r in H. rewrite H, Z.eqb_refl, orb_true_r. exact IH.
    + destruct (_ || _); [exact IH|].
      rewrite (square_loop_u64_false tc n a d s (Z.to_nat s) 1); try assumption; try lia.
      * rewrite Z.sub_diag, Z.pow_0_r, Z.mul_1_r. reflexivity.
      * exists r. split; [lia|exact H].
Qed.

(** No false negative where [mul_mod] is exact. *)
Lemma is_prime_u64_prime tc n :
  Z.prime n -> n < two64 -> exact tc n -> is_prime_u64 tc n = true.
Proof.
  intros Hp Hn Hx. pose proof (Z.prime_ge_2 _ Hp) as H2.
  unfold is_prime_u64.
  destruct (Z.ltb_spec n 2) as [E|E]; [lia|].
  pose proof (trial_division_u64_prime small_primes n Hp small_primes_gt_1) as Ht.
  destruct (trial_division_u64 small_primes n) as [[|]|] eqn:T;
    [reflexivity | congruence |].
  apply trial_division_u64_none in T.
  assert (H3 : 3 <= n).
  { inversion T as [|? ? [T2 _] _]; subst. lia. }
  destruct (decompose_loop_u64 64 (n - 1) 0) as [d s] eqn:Ed.
  apply decompose_loop_u64_spec in Ed; [|unfold two64 in Hn; simpl; lia|lia].
  destruct Ed as (_ & Hd & Hs & Ed). rewrite Z.sub_0_r in Ed.
  apply bases_loop_prime; try assumption; lia.
Qed.

End Primes64Facts.

(** From here on [lia] reads [/] and [mod] by a constant through their
    Euclidean equations. *)
Ltac Zify.zify_post_hook ::= Z.div_mod_to_equations.

Ltac split4 := split; [|split; [|split]].

(** ** Primes are odd and have no small factor; sorted results *)

Lemma prime_odd p : Z.prime p -> 2 < p -> p mod 2 = 1.
Proof.
  intros [_ Hp] H2.
  pose proof (Z.mod_pos_bound p 2 ltac:(lia)).
  destruct (Z.eq_dec (p mod 2) 0) as [E|E]; [exfalso|lia].
  apply (Hp 2); [lia|]. exists (p / 2).
  pose proof (Z.div_mod p 2 ltac:(lia)). lia.
Qed.

Lemma prime_not_multiple p q : Z.prime p -> 1 < q < p -> p mod q <> 0.
Proof.
  intros [_ Hp] Hq E. apply (Hp q Hq). exists (p / q).
  pose proof (Z.div_mod p q ltac:(lia)). lia.
Qed.

Lemma sorted_cons_ge (n : Z) (l : list Z) :
  StronglySorted Z.lt l -> Forall (fun p => n + 2 <= p) l ->
  StronglySorted Z.lt (n :: l).
Proof.
  intros Hs Hf. constructor; [exact Hs|].
  eapply Forall_impl; [|exact Hf]. cbv beta. intros. lia.
Qed.

(** ** The unbounded program: candidates and generation *)

Module BigGenerateFacts.
Import BigPrimes.

(** *** The fuel of the loops suffices *)

Lemma powmod_loop_fuel fuel k : forall res base exp md,
  exp < 2 ^ Z.of_nat fuel ->
  powmod_loop (fuel + k) res base exp md = powmod_loop fuel res base exp md.
Proof.
  induction fuel as [|fuel IH]; intros res base exp md He.
  - simpl in He. destruct k; [reflexivity|]. cbn [Nat.add powmod_loop].
    destruct (Z.gtb_spec exp 0); [lia|reflexivity].
  - cbn [Nat.add powmod_loop].
    destruct (Z.gtb_spec exp 0); [|reflexivity].
    apply IH. rewrite shiftr_1_div. apply half_lt_pow2. lia.
Qed.

Lemma decompose_loop_fuel fuel k : forall d s,
  0 < d < 2 ^ Z.of_nat fuel ->
  decompose_loop (fuel + k) d s = decompose_loop fuel d s.
Proof.
  induction fuel as [|fuel IH]; intros d s Hd.
  - simpl in Hd. lia.
  - cbn [Nat.add decompose_loop]. rewrite land_1_mod.
    destruct (Z.eqb_spec (d mod 2) 0) as [E|E]; [|reflexivity].
    rewrite shiftr_1_div. apply IH.
    pose proof (Z.div_mod d 2 ltac:(lia)).
    pose proof (half_lt_pow2 d fuel ltac:(lia)). lia.
Qed.

Lemma square_loop_fuel fuel k : forall r s x n,
  s - r <= Z.of_nat fuel ->
  square_loop (fuel + k) r s x n = square_loop fuel r s x n.
Proof.
  induction fuel as [|fuel IH]; intros r s x n H.
  - destruct k; [reflexivity|]. cbn [Nat.add square_loop].
    destruct (Z.ltb_spec r s); [lia|reflexivity].
  - cbn [Nat.add square_loop].
    destruct (Z.ltb_spec r s); [|reflexivity].
    destruct (_ =? _); [reflexivity|]. apply IH. lia.
Qed.

Definition passes (n : Z) : bool :=
  negb (Z.rem n 3 =? 0) && negb (Z.rem n 5 =? 0).

Lemma passes_spec n :
  0 <= n -> passes n = true <-> n mod 3 <> 0 /\ n mod 5 <> 0.
Proof.
  intros Hn. unfold passes. rewrite !Z.rem_mod_nonneg by lia.
  destruct (Z.eqb_spec (n mod 3) 0), (Z.eqb_spec (n mod 5) 0); simpl;
    intuition congruence.
Qed.

Lemma passes_false n :
  0 <= n -> passes n = false -> n mod 3 = 0 \/ n mod 5 = 0.
Proof.
  intros Hn. unfold passes. rewrite !Z.rem_mod_nonneg by lia.
  destruct (Z.eqb_spec (n mod 3) 0), (Z.eqb_spec (n mod 5) 0); simpl;
    intuition congruence.
Qed.

(** Three tests always reach a value coprime to 15. *)
Lemma wheel_loop_spec n :
  0 <= n ->
  let r := wheel_loop 3 n in
  passes r = true /\
  (r = n \/ (r = n + 2 /\ passes n = false) \/
   (r = n + 4 /\ passes n = false /\ passes (n + 2) = false)).
Proof.
  intros Hn. cbn [wheel_loop]. fold (passes n) (passes (n + 2)) (passes (n + 2 + 2)).
  destruct (passes n) eqn:P0; [solve [intuition auto]|].
  destruct (passes (n + 2)) eqn:P1; [solve [intuition auto]|].
  replace (n + 2 + 2) with (n + 4) in * by lia.
  destruct (passes (n + 4)) eqn:P2; [solve [intuition auto]|exfalso].
  apply passes_false in P0, P1, P2; lia.
Qed.

Lemma wheel_loop_fuel k n : 0 <= n -> wheel_loop (3 + k) n = wheel_loop 3 n.
Proof.
  intros Hn. pose proof (wheel_loop_spec n Hn) as [Hp H]. revert Hp H.
  cbn [Nat.add wheel_loop].
  fold (passes n) (passes (n + 2)) (passes (n + 2 + 2)).
  destruct (passes n); [reflexivity|].
  destruct (passes (n + 2)); [reflexivity|].
  destruct (passes (n + 2 + 2)) eqn:P2; [reflexivity|].
  intros Hp. fold (passes (n + 2 + 2 + 2)) in Hp. intros [H|[[H _]|[H _]]]; lia.
Qed.

Lemma wheel_loop_fix n : passes n = true -> wheel_loop 3 n = n.
Proof. intros H. cbn [wheel_loop]. fold (passes n). rewrite H. reflexivity. Qed.

(** next_candidate is idempotent in the unbounded program. *)
Lemma next_candidate_idempotent n :
  next_candidate (next_candidate n) = next_candidate n.
Proof.
  unfold next_candidate at 2 3.
  destruct (Z.leb_spec n 2) as [E|E]; [reflexivity|].
  rewrite land_1_mod.
  set (m := if n mod 2 =? 0 then n + 1 else n).
  assert (Hm : 2 < m /\ m mod 2 = 1).
  { subst m. destruct (Z.eqb_spec (n mod 2) 0); lia. }
  destruct (wheel_loop_spec m ltac:(lia)) as [Hp Hr].
  set (r := wheel_loop 3 m) in *.
  assert (Hr' : 2 < r /\ r mod 2 = 1) by lia.
  unfold next_candidate.
  destruct (Z.leb_spec r 2) as [E'|E']; [lia|].
  rewrite land_1_mod.
  destruct (Z.eqb_spec (r mod 2) 0); [lia|].
  apply wheel_loop_fix. exact Hp.
Qed.

(** No prime above 5 is stepped over. *)
Lemma next_candidate_no_skip n p :
  Z.prime p -> 5 < p -> n <= p -> next_candidate n <= p.
Proof.
  intros Hp H5 Hn. unfold next_candidate.
  destruct (Z.leb_spec n 2) as [E|E]; [lia|].
  rewrite land_1_mod.
  pose proof (prime_odd p Hp ltac:(lia)) as Ho.
  pose proof (prime_not_multiple p 3 Hp ltac:(lia)) as H3.
  pose proof (prime_not_multiple p 5 Hp ltac:(lia)) as H5'.
  set (m := if n mod 2 =? 0 then n + 1 else n).
  assert (Hm : 2 < m <= p /\ m mod 2 = 1).
  { subst m. destruct (Z.eqb_spec (n mod 2) 0); lia. }
  destruct (wheel_loop_spec m ltac:(lia)) as [_ Hr].
  destruct Hr as [Hr|[[Hr P0]|[Hr [P0 P1]]]]; rewrite Hr.
  - lia.
  - assert (m <> p).
    { intros ->. assert (passes p = true) by (apply passes_spec; lia). congruence. }
    lia.
  - assert (m <> p).
    { intros ->. assert (passes p = true) by (apply passes_spec; lia). congruence. }
    assert (m + 2 <> p).
    { intros <-. assert (passes (m + 2) = true) by (apply passes_spec; lia).
      congruence. }
    lia.
Qed.

(** *** What generate_primes returns *)

Lemma next_candidate_ge n : n <= next_candidate n.
Proof.
  unfold next_candidate. destruct (Z.leb_spec n 2); [lia|].
  rewrite land_1_mod.
  set (m := if n mod 2 =? 0 then n + 1 else n).
  assert (Hm : n <= m) by (subst m; destruct (_ =? _); lia).
  destruct (wheel_loop_spec m ltac:(lia)) as [_ Hr]. lia.
Qed.

Section WithEngine.
Context {engine : Type} {D : Dist64 engine}.

(** What the loop appends: increasing values from [n] on, each accepted by
    is_prime at the state the engine had then; the loop stops at [count]
    values. *)
Lemma generate_loop_spec fuel : forall n primes count (g : engine) l,
  generate_loop fuel n primes count g = Some l ->
  exists extra,
    l = primes ++ extra /\
    StronglySorted Z.lt extra /\
    Forall (fun p => n <= p /\ exists g', fst (is_prime p g') = true) extra /\
    (Z.of_nat (length primes) <= count -> Z.of_nat (length l) = count).
Proof.
  induction fuel as [|fuel IH]; intros n primes count g l H; [discriminate|].
  cbn [generate_loop] in H.
  destruct (Z.ltb_spec (Z.of_nat (length primes)) count) as [Hc|Hc].
  2:{ inversion H; subst. exists []. rewrite app_nil_r.
      split4; [reflexivity | constructor | constructor | lia]. }
  destruct (is_prime n g) as [b g'] eqn:P.
  apply IH in H. destruct H as (extra & El & Hs & Hf & Hl).
  assert (Hf' : Forall (fun p => n + 2 <= p) extra).
  { eapply Forall_impl; [|exact Hf]. cbv beta. intros p [Hp _]. exact Hp. }
  assert (Hf'' : Forall (fun p => n <= p /\ exists g', fst (is_prime p g') = true)
                        extra).
  { eapply Forall_impl; [|exact Hf]. cbv beta. intros p [Hp Hq].
    split; [lia|exact Hq]. }
  destruct b.
  - exists (n :: extra). rewrite <- app_assoc in El. split4.
    + exact El.
    + apply sorted_cons_ge; assumption.
    + constructor; [|exact Hf'']. split; [lia|]. exists g. rewrite P. reflexivity.
    + intros _. apply Hl. rewrite length_app. simpl. lia.
  - exists extra. split4; assumption.
Qed.

(** With a count of at least 1, or a start above 2, the result is increasing,
    holds values from start on that is_prime accepted, and has exactly count
    values. *)
Lemma generate_primes_spec fuel start count (g : engine) l :
  1 <= count \/ (0 <= count /\ 2 < start) ->
  generate_primes fuel start count g = Some l ->
  StronglySorted Z.lt l /\
  Forall (fun p => start <= p /\ exists g', fst (is_prime p g') = true) l /\
  Z.of_nat (length l) = count.
Proof.
  intros Hc H. unfold generate_primes in H.
  pose proof (next_candidate_ge start) as Hge.
  destruct (Z.eqb_spec (next_candidate start) 2) as [E|E].
  - apply generate_loop_spec in H.
    destruct H as (extra & -> & Hsort & Hf & Hl).
    split; [|split].
    + cbn [app]. constructor; [exact Hsort|].
      eapply Forall_impl; [|exact Hf]. cbv beta. intros p [Hp _]. lia.
    + cbn [app]. constructor.
      * split; [lia|]. exists g. reflexivity.
      * eapply Forall_impl; [|exact Hf]. cbv beta. intros p [Hp Hq].
        split; [lia|exact Hq].
    + apply Hl. simpl. lia.
  - apply generate_loop_spec in H.
    destruct H as (extra & -> & Hsort & Hf & Hl).
    split; [|split].
    + exact Hsort.
    + eapply Forall_impl; [|exact Hf]. cbv beta. intros p [Hp Hq].
      split; [lia|exact Hq].
    + apply Hl. simpl. lia.
Qed.

End WithEngine.

End BigGenerateFacts.

(** ** The 64-bit program: candidates and generation *)

Module Primes64GenerateFacts.
Import Primes64 Primes64Facts.

(** *** The candidate filter *)

(** Below the last two values of the type nothing wraps. *)
Lemma next_candidate_u64_spec n :
  2 < n <= U64_MAX - 2 ->
  let r := next_candidate_u64 n in
  r mod 2 = 1 /\ r mod 3 <> 0 /\ n <= r <= n + 3 /\ r <= U64_MAX /\
  forall m, n <= m < r -> m mod 2 = 0 \/ m mod 3 = 0.
Proof.
  unfold U64_MAX. intros Hn. unfold next_candidate_u64.
  destruct (Z.leb_spec n 2) as [E|E]; [lia|].
  rewrite land_1_mod.
  set (m := if n mod 2 =? 0 then wrap64 (n + 1) else n).
  assert (Hm : m mod 2 = 1 /\ n <= m <= n + 1 /\ m <= 18446744073709551613 /\
               (m = n \/ n mod 2 = 0)).
  { subst m. destruct (Z.eqb_spec (n mod 2) 0).
    - rewrite wrap64_small by (unfold two64; lia). lia.
    - lia. }
  cbn [skip3_loop].
  destruct (Z.eqb_spec (m mod 3) 0) as [E3|E3].
  - rewrite wrap64_small by (unfold two64; lia).
    destruct (Z.eqb_spec ((m + 2) mod 3) 0) as [E4|E4]; [lia|].
    repeat split; try lia; intros k Hk; lia.
  - repeat split; try lia; intros k Hk; lia.
Qed.

Lemma next_candidate_u64_idempotent n :
  0 <= n <= U64_MAX - 2 ->
  next_candidate_u64 (next_candidate_u64 n) = next_candidate_u64 n.
Proof.
  intros Hn. destruct (Z.le_gt_cases n 2) as [E|E].
  - unfold next_candidate_u64 at 2 3. destruct (Z.leb_spec n 2); [reflexivity|lia].
  - pose proof (next_candidate_u64_spec n ltac:(lia)) as H. cbv zeta in H.
    destruct H as (H2 & H3 & Hr & _).
    set (r := next_candidate_u64 n) in *.
    unfold next_candidate_u64.
    destruct (Z.leb_spec r 2); [lia|].
    rewrite land_1_mod. destruct (Z.eqb_spec (r mod 2) 0); [lia|].
    cbn [skip3_loop]. destruct (Z.eqb_spec (r mod 3) 0); [lia|reflexivity].
Qed.

(** No prime above 3 is stepped over. *)
Lemma next_candidate_u64_no_skip n p :
  Z.prime p -> 3 < p -> 0 <= n <= p -> p <= U64_MAX ->
  next_candidate_u64 n <= p.
Proof.
  intros Hp H3 Hn Hmax.
  pose proof (prime_odd p Hp ltac:(lia)) as Ho.
  pose proof (prime_not_multiple p 3 Hp ltac:(lia)) as Hp3.
  destruct (Z.le_gt_cases n 2) as [E|E].
  { unfold next_candidate_u64. destruct (Z.leb_spec n 2); lia. }
  destruct (Z.le_gt_cases n (U64_MAX - 2)) as [E'|E'].
  - pose proof (next_candidate_u64_spec n ltac:(lia)) as H. cbv zeta in H.
    destruct H as (_ & _ & _ & _ & H).
    destruct (Z.le_gt_cases (next_candidate_u64 n) p) as [L|L]; [exact L|].
    specialize (H p ltac:(lia)). lia.
  - unfold U64_MAX in *.
    assert (Hc : n = 18446744073709551614 \/ n = 18446744073709551615) by lia.
    destruct Hc as [-> | ->]; vm_compute; lia.
Qed.

(** *** What generate_primes_u64 returns *)

(** What the loop appends: increasing values from [n] on, each accepted by
    is_prime_u64, and no more than [count] values in all. *)
Lemma generate_loop_u64_spec tc fuel : forall n primes count l,
  0 <= n ->
  generate_loop_u64 tc fuel n primes count = Some l ->
  exists extra,
    l = primes ++ extra /\
    StronglySorted Z.lt extra /\
    Forall (fun p => n <= p /\ is_prime_u64 tc p = true) extra /\
    (Z.of_nat (length primes) <= count -> Z.of_nat (length l) <= count).
Proof.
  induction fuel as [|fuel IH]; intros n primes count l Hn H; [discriminate|].
  cbn [generate_loop_u64] in H.
  destruct (Z.ltb_spec (Z.of_nat (length primes)) count) as [Hc|Hc].
  2:{ inversion H; subst. exists []. rewrite app_nil_r.
      split4; [reflexivity | constructor | constructor | lia]. }
  destruct (Z.geb_spec n (U64_MAX - 2)) as [Hm|Hm].
  - inversion H; subst. destruct (is_prime_u64 tc n) eqn:P.
    + exists [n]. split4.
      * reflexivity.
      * repeat constructor.
      * constructor; [split; [lia|exact P]|constructor].
      * rewrite length_app. simpl. lia.
    + exists []. rewrite app_nil_r.
      split4; [reflexivity | constructor | constructor | lia].
  - unfold U64_MAX in Hm. rewrite wrap64_small in H by (unfold two64; lia).
    apply IH in H; [|lia]. destruct H as (extra & El & Hs & Hf & Hl).
    assert (Hf' : Forall (fun p => n + 2 <= p) extra).
    { eapply Forall_impl; [|exact Hf]. cbv beta. intros p [Hp _]. exact Hp. }
    assert (Hf'' : Forall (fun p => n <= p /\ is_prime_u64 tc p = true) extra).
    { eapply Forall_impl; [|exact Hf]. cbv beta. intros p [Hp Hq].
      split; [lia|exact Hq]. }
    destruct (is_prime_u64 tc n) eqn:P.
    + exists (n :: extra). rewrite <- app_assoc in El. split4.
      * exact El.
      * apply sorted_cons_ge; assumption.
      * constructor; [split; [lia|exact P]|exact Hf''].
      * intros _. apply Hl. rewrite length_app. simpl. lia.
    + exists extra. split4; assumption.
Qed.

(** The loop ends: the candidate rises by 2 until the clamp stops it. *)
Lemma generate_loop_u64_terminates tc fuel : forall n primes count,
  0 <= n <= U64_MAX -> U64_MAX - n < 2 * Z.of_nat fuel ->
  exists l, generate_loop_u64 tc fuel n primes count = Some l.
Proof.
  induction fuel as [|fuel IH]; intros n primes count Hn Hf; [lia|].
  cbn [generate_loop_u64].
  destruct (Z.of_nat (length primes) <? count); [|eexists; reflexivity].
  destruct (Z.geb_spec n (U64_MAX - 2)) as [Hm|Hm]; [eexists; reflexivity|].
  unfold U64_MAX in *. rewrite wrap64_small by (unfold two64; lia).
  apply IH; lia.
Qed.

Lemma next_candidate_u64_range n :
  0 <= n <= U64_MAX -> 0 <= next_candidate_u64 n <= U64_MAX.
Proof.
  intros Hn. unfold next_candidate_u64, U64_MAX in *.
  destruct (Z.leb_spec n 2); [lia|].
  set (m := if Z.land n 1 =? 0 then wrap64 (n + 1) else n).
  assert (Hm : 0 <= m <= 18446744073709551615).
  { subst m. destruct (_ =? _); [|lia]. unfold wrap64, two64.
    pose proof (Z.mod_pos_bound (n + 1) 18446744073709551616 ltac:(lia)). lia. }
  cbn [skip3_loop]. clearbody m.
  pose proof (Z.mod_pos_bound (m + 2) 18446744073709551616 ltac:(lia)) as H1.
  pose proof (Z.mod_pos_bound (wrap64 (m + 2) + 2) 18446744073709551616
                ltac:(lia)) as H2.
  unfold wrap64, two64 in *.
  repeat (destruct (_ =? _)); lia.
Qed.

(** With a count of at least 1 and a start the candidate filter does not
    wrap at, the result is increasing, holds values from start on that
    is_prime_u64 accepts, and is no longer than count. *)
Lemma generate_primes_u64_spec tc fuel start count l :
  0 <= start <= U64_MAX - 2 -> 1 <= count ->
  generate_primes_u64 tc fuel start count = Some l ->
  StronglySorted Z.lt l /\
  Forall (fun p => start <= p /\ is_prime_u64 tc p = true) l /\
  Z.of_nat (length l) <= count.
Proof.
  intros Hs Hc H. unfold generate_primes_u64 in H.
  destruct (Z.eqb_spec (next_candidate_u64 start) 2) as [E|E].
  - assert (Hs2 : start <= 2).
    { destruct (Z.le_gt_cases start 2) as [L|L]; [exact L|].
      pose proof (next_candidate_u64_spec start ltac:(lia)) as S. cbv zeta in S.
      lia. }
    apply generate_loop_u64_spec in H; [|lia].
    destruct H as (extra & -> & Hsort & Hf & Hl).
    split; [|split].
    + cbn [app]. constructor; [exact Hsort|].
      eapply Forall_impl; [|exact Hf]. cbv beta. intros p [Hp _]. lia.
    + cbn [app]. constructor; [split; [lia|reflexivity]|].
      eapply Forall_impl; [|exact Hf]. cbv beta. intros p [Hp Hq].
      split; [lia|exact Hq].
    + apply Hl. simpl. lia.
  - assert (Hge : start <= next_candidate_u64 start).
    { destruct (Z.le_gt_cases start 2) as [L|L].
      - unfold next_candidate_u64. destruct (Z.leb_spec start 2); lia.
      - pose proof (next_candidate_u64_spec start ltac:(lia)) as S. cbv zeta in S.
        lia. }
    apply generate_loop_u64_spec in H; [|lia].
    destruct H as (extra & -> & Hsort & Hf & Hl).
    split; [|split].
    + exact Hsort.
    + eapply Forall_impl; [|exact Hf]. cbv beta. intros p [Hp Hq].
      split; [lia|exact Hq].
    + apply Hl. simpl. lia.
Qed.

End Primes64GenerateFacts.

(** ** Certified primes and a concrete engine for the runs *)

(** 577 = 9 * 2^6 + 1, the first Proth prime above the table of the
    unbounded program. *)
Lemma prime_577 : Z.prime 577.
Proof.
  apply (proth 577 9 5 5).
  - split; reflexivity.
  - reflexivity.
  - rewrite <- powmod_spec by (vm_compute; discriminate).
    vm_compute. reflexivity.
Qed.

(** 27 * 2^59 + 1, a prime between 2^63 and 2^64. *)
Definition proth_27_59 : Z := 15564440312192434177.

Lemma prime_proth_27_59 : Z.prime proth_27_59.
Proof.
  apply (proth proth_27_59 27 58 5).
  - split; reflexivity.
  - reflexivity.
  - rewrite <- powmod_spec by (vm_compute; discriminate).
    vm_compute. reflexivity.
Qed.

(** A linear congruential engine, for runs of the unbounded program. *)
Definition lcg_draw (g : Z) : Z * Z :=
  (2 + g mod (U64_MAX - 1),
   wrap64 (6364136223846793005 * g + 1442695040888963407)).

Lemma lcg_draw_range g : 2 <= fst (lcg_draw g) <= U64_MAX.
Proof.
  unfold lcg_draw, U64_MAX. cbn [fst].
  pose proof (Z.mod_pos_bound g (18446744073709551615 - 1) ltac:(lia)). lia.
Qed.

#[local] Instance lcg : BigPrimes.Dist64 Z :=
  {| BigPrimes.dist64 := lcg_draw; BigPrimes.dist64_range := lcg_draw_range |}.

(** ** The claims *)

(** C1 (defect): 27 * 2^59 + 1 = 15564440312192434177 is prime, and
    is_prime_u64 built with the MSVC body of mul_mod reports it composite
    (the products of the test wrap, see C3); with the 128-bit body it is
    reported prime. *)
Theorem C1_is_prime_u64_rejects_a_prime :
  Z.prime proth_27_59 /\
  2 <= proth_27_59 < 2 ^ 64 /\
  Primes64.is_prime_u64 Primes64.MSVC proth_27_59 = false /\
  Primes64.is_prime_u64 Primes64.GNU proth_27_59 = true.
Proof.
  split; [exact prime_proth_27_59|].
  repeat split; vm_compute; congruence.
Qed.

(** C2 (defect): with start 0 and count 0 both generators return [2], one
    value more than requested: 2 is pushed before the count is looked at. *)
Theorem C2_count_zero_returns_two :
  (forall tc fuel, Primes64.generate_primes_u64 tc (S fuel) 0 0 = Some [2]) /\
  (forall engine (D : BigPrimes.Dist64 engine) fuel (g : engine),
      BigPrimes.generate_primes (S fuel) 0 0 g = Some [2]).
Proof. split; intros; reflexivity. Qed.

(** C3 (defect): with a modulus above 2^63 the doubling of [base] in the MSVC
    body of [mul_mod] leaves the 64-bit range and wraps:
    mul_mod(2^63, 2, 2^64 - 1) is 0 there, while 2^63 * 2 mod (2^64 - 1) is 1,
    which the 128-bit body returns. *)
Theorem C3_mul_mod_msvc_wraps :
  Primes64.mul_mod Primes64.MSVC (2 ^ 63) 2 U64_MAX = 0 /\
  (2 ^ 63 * 2) mod U64_MAX = 1 /\
  Primes64.mul_mod Primes64.GNU (2 ^ 63) 2 U64_MAX = 1.
Proof. repeat split; vm_compute; reflexivity. Qed.

(** C4 (defect): the candidate filter drops the primes 3 and 5 themselves:
    next_candidate_u64(3) is 5 and next_candidate(3) is 7, so the prime 3
    lies in [n, next_candidate n) in both programs, and so does 5 in the
    unbounded one. *)
Theorem C4_next_candidate_skips_three :
  Primes64.next_candidate_u64 3 = 5 /\
  BigPrimes.next_candidate 3 = 7 /\
  BigPrimes.next_candidate 5 = 7 /\
  Z.prime 3.
Proof. repeat split; try reflexivity; apply Z.prime_3. Qed.

(** C5 (defect): from start 2^64 - 1 the candidate wraps to 1 inside
    next_candidate_u64, before the clamp of generate_primes_u64 is reached:
    the call with count 1000 returns 1000 values, from 3 to 7927. *)
Theorem C5_generate_primes_u64_wraps :
  forall tc,
    Primes64.next_candidate_u64 U64_MAX = 1 /\
    option_map (fun primes => (length primes, hd 0 primes, last primes 0))
      (Primes64.generate_primes_u64 tc 4000 U64_MAX 1000)
    = Some (1000%nat, 3, 7927).
Proof. intros tc. split; [reflexivity | destruct tc; vm_compute; reflexivity]. Qed.

(** C6 (defect): pow_mod with the MSVC body of mul_mod is not a^d mod m once
    the modulus exceeds 2^63.  is_prime_u64(2^64 - 59), the first test of
    generate_primes_u64 from start 18446744073709551557, passes the trial
    division, splits n - 1 into d * 2^2 and calls pow_mod(2, d, n): the call
    returns 0, while 2^d mod n is 2296021864060584341, which the 128-bit
    body returns.  The products wrap as in C3. *)
Theorem C6_pow_mod_msvc_wraps :
  Primes64.next_candidate_u64 18446744073709551557 = 18446744073709551557 /\
  Primes64.trial_division_u64 Primes64.small_primes 18446744073709551557 = None /\
  Primes64.decompose_loop_u64 64 (18446744073709551557 - 1) 0
  = (4611686018427387889, 2) /\
  Primes64.pow_mod Primes64.MSVC 2 4611686018427387889 18446744073709551557 = 0 /\
  2 ^ 4611686018427387889 mod 18446744073709551557 = 2296021864060584341 /\
  Primes64.pow_mod Primes64.GNU 2 4611686018427387889 18446744073709551557
  = 2296021864060584341.
Proof.
  split; [vm_compute; reflexivity|].
  split; [vm_compute; reflexivity|].
  split; [vm_compute; reflexivity|].
  split; [vm_compute; reflexivity|].
  split; [|vm_compute; reflexivity].
  rewrite <- powmod_spec by (vm_compute; discriminate).
  vm_compute. reflexivity.
Qed.

(** C7 (defect): next_candidate_u64(2^64 - 1) wraps to 1 (2^64 - 1 is a
    multiple of 3 and [n += 2] overflows), and next_candidate_u64(1) is 2:
    the function is not idempotent on that output. *)
Theorem C7_next_candidate_u64_wraps :
  Primes64.next_candidate_u64 U64_MAX = 1 /\
  Primes64.next_candidate_u64 (Primes64.next_candidate_u64 U64_MAX) = 2.
Proof. split; vm_compute; reflexivity. Qed.

(** C8: in both programs is_prime returns true at every entry of the
    program's table of small primes, false at every even n above 2 and false
    at every n below 2; in the 64-bit program with either body of mul_mod, in
    the unbounded one from every state of every engine. *)
Theorem C8_table_entries_evens_and_small :
  forall n,
    (forall tc,
        (In n Primes64.small_primes -> Primes64.is_prime_u64 tc n = true) /\
        (2 < n -> Z.even n = true -> Primes64.is_prime_u64 tc n = false) /\
        (n < 2 -> Primes64.is_prime_u64 tc n = false)) /\
    (forall engine (D : BigPrimes.Dist64 engine) (g : engine),
        (In n BigPrimes.SMALL_PRIMES -> BigPrimes.is_prime n g = (true, g)) /\
        (2 < n -> Z.even n = true -> BigPrimes.is_prime n g = (false, g)) /\
        (n < 2 -> BigPrimes.is_prime n g = (false, g))).
Proof.
  intros n. split.
  - intros tc. repeat split.
    + intros H. unfold Primes64.small_primes in H. simpl In in H.
      repeat (destruct H as [<-|H]; [reflexivity|]). contradiction.
    + intros H2 He. unfold Primes64.is_prime_u64.
      destruct (Z.ltb_spec n 2) as [E|E]; [lia|].
      cbn [Primes64.small_primes Primes64.trial_division_u64].
      destruct (Z.eqb_spec n 2) as [E2|E2]; [lia|].
      apply Z.even_spec in He. destruct He as [q ->].
      rewrite Z.mul_comm, Z.mod_mul by lia. reflexivity.
    + intros H. unfold Primes64.is_prime_u64.
      destruct (Z.ltb_spec n 2) as [E|E]; [reflexivity|lia].
  - intros engine D g. repeat split.
    + intros H. unfold BigPrimes.SMALL_PRIMES in H. simpl In in H.
      repeat (destruct H as [<-|H]; [reflexivity|]). contradiction.
    + intros H2 He. unfold BigPrimes.is_prime.
      destruct (Z.ltb_spec n 2) as [E|E]; [lia|].
      cbn [BigPrimes.SMALL_PRIMES BigPrimes.trial_division].
      destruct (Z.eqb_spec n 2) as [E2|E2]; [lia|].
      apply Z.even_spec in He. destruct He as [q ->].
      rewrite Z.mul_comm, Z.rem_mul by lia. reflexivity.
    + intros H. unfold BigPrimes.is_prime.
      destruct (Z.ltb_spec n 2) as [E|E]; [reflexivity|lia].
Qed.

Lemma C8_table_entries_evens_and_small_witness :
  (In 37 Primes64.small_primes /\
   Primes64.is_prime_u64 Primes64.MSVC 37 = true) /\
  (2 < 38 /\ Z.even 38 = true /\
   Primes64.is_prime_u64 Primes64.GNU 38 = false) /\
  (1 < 2 /\ Primes64.is_prime_u64 Primes64.MSVC 1 = false) /\
  (In 499 BigPrimes.SMALL_PRIMES /\ BigPrimes.is_prime 499 7 = (true, 7)) /\
  (2 < 500 /\ Z.even 500 = true /\ BigPrimes.is_prime 500 7 = (false, 7)) /\
  (-3 < 2 /\ BigPrimes.is_prime (-3) 7 = (false, 7)).
Proof.
  assert (H37 : In 37 Primes64.small_primes) by (vm_compute; tauto).
  assert (H499 : In 499 BigPrimes.SMALL_PRIMES) by (vm_compute; tauto).
  assert (E38 : Z.even 38 = true) by reflexivity.
  assert (E500 : Z.even 500 = true) by reflexivity.
  refine (conj (conj H37 _) (conj (conj _ (conj E38 _)) (conj (conj _ _)
            (conj (conj H499 _) (conj (conj _ (conj E500 _)) (conj _ _)))))).
  - exact (proj1 (proj1 (C8_table_entries_evens_and_small 37) Primes64.MSVC) H37).
  - lia.
  - exact (proj1 (proj2 (proj1 (C8_table_entries_evens_and_small 38) Primes64.GNU))
             ltac:(lia) E38).
  - lia.
  - exact (proj2 (proj2 (proj1 (C8_table_entries_evens_and_small 1) Primes64.MSVC))
             ltac:(lia)).
  - exact (proj1 (proj2 (C8_table_entries_evens_and_small 499) Z lcg 7) H499).
  - lia.
  - exact (proj1 (proj2 (proj2 (C8_table_entries_evens_and_small 500) Z lcg 7))
             ltac:(lia) E500).
  - lia.
  - exact (proj2 (proj2 (proj2 (C8_table_entries_evens_and_small (-3)) Z lcg 7))
             ltac:(lia)).
Defined.

(** C9 (defect): a count argument that std::stoull rejects ends neither in
    exit code 0 nor in exit code 1: the start argument 10 is read, and the
    exception thrown for the count leaves [main] of both programs. *)
Theorem C9_malformed_count_terminates :
  (forall tc fuel,
      Primes64.main tc fuel ["next_primes"; "10"; "abc"]%string
      = Some (Terminate Invalid_argument)) /\
  (forall engine (D : BigPrimes.Dist64 engine) fuel (g : engine),
      BigPrimes.main fuel g ["next_primes"; "10"; "abc"]%string (Some 10)
      = Some (Terminate Invalid_argument)) /\
  stoull "10" = Value 10 /\ stoull "abc" = Throws Invalid_argument.
Proof. repeat split; intros; reflexivity. Qed.

(** C10: the unbounded miller_rabin returns true at every prime n, for every
    number of rounds and from every state of every engine.  [unsigned s] of
    [decompose] holds the exponent of 2 in n - 1 as long as n has fewer than
    2^32 bits, which is the hypothesis on [Z.log2 n]. *)
Theorem C10_miller_rabin_accepts_every_prime :
  forall engine (D : BigPrimes.Dist64 engine) (n rounds : Z) (g : engine),
    Z.prime n -> Z.log2 n < 2 ^ 32 ->
    fst (BigPrimes.miller_rabin n rounds g) = true.
Proof.
  intros engine D n rounds g Hp Hl.
  apply BigFacts.miller_rabin_prime; assumption.
Qed.

Lemma C10_miller_rabin_accepts_every_prime_witness :
  Z.prime 577 /\ Z.log2 577 < 2 ^ 32 /\
  fst (BigPrimes.miller_rabin 577 32 (2026 : Z)) = true.
Proof.
  split; [exact prime_577|]. split; [reflexivity|].
  apply (C10_miller_rabin_accepts_every_prime Z lcg 577 32 2026 prime_577).
  reflexivity.
Defined.

(** * Further properties *)

(** ** Deciding primality by trial division, for the tables *)

(** No value of [c, c + k) divides [n]. *)
Fixpoint no_divisor (k : nat) (c n : Z) : bool :=
  match k with
  | O => true
  | S k' => negb (n mod c =? 0) && no_divisor k' (c + 1) n
  end.

Definition prime_check (n : Z) : bool :=
  (1 <? n) && no_divisor (Z.to_nat (n - 2)) 2 n.

Lemma no_divisor_true k : forall c n,
  0 < c -> no_divisor k c n = true ->
  forall m, c <= m < c + Z.of_nat k -> ~ (m | n).
Proof.
  induction k as [|k IH]; intros c n Hc H m Hm [q Hq]; [lia|].
  cbn [no_divisor] in H. apply andb_true_iff in H. destruct H as [H1 H2].
  destruct (Z.eq_dec m c) as [->|Hne].
  - subst n. rewrite Z.mod_mul in H1 by lia. discriminate.
  - apply (IH (c + 1) n ltac:(lia) H2 m ltac:(lia)). exists q. exact Hq.
Qed.

Lemma no_divisor_false k : forall c n,
  0 < c -> no_divisor k c n = false ->
  exists m, c <= m < c + Z.of_nat k /\ (m | n).
Proof.
  induction k as [|k IH]; intros c n Hc H; [discriminate|].
  cbn [no_divisor] in H. apply andb_false_iff in H. destruct H as [H|H].
  - exists c. split; [lia|].
    destruct (Z.eqb_spec (n mod c) 0) as [E|E]; [|discriminate].
    exists (n / c). pose proof (Z_div_mod_eq_full n c). lia.
  - destruct (IH (c + 1) n ltac:(lia) H) as [m [Hm Hd]].
    exists m. split; [lia|exact Hd].
Qed.

Lemma prime_check_iff n : prime_check n = true <-> Z.prime n.
Proof.
  unfold prime_check. split.
  - intros H. apply andb_true_iff in H. destruct H as [H1 H2].
    apply Z.ltb_lt in H1. split; [exact H1|].
    intros m Hm. apply (no_divisor_true _ 2 n ltac:(lia) H2). lia.
  - intros [H1 H2]. apply andb_true_iff. split; [apply Z.ltb_lt; exact H1|].
    destruct (no_divisor (Z.to_nat (n - 2)) 2 n) eqn:E; [reflexivity|exfalso].
    destruct (no_divisor_false _ 2 n ltac:(lia) E) as [m [Hm Hd]].
    apply (H2 m); [lia|exact Hd].
Qed.

(** A number above 1 that is not prime has a prime factor up to its square
    root. *)
Lemma small_prime_factor n :
  1 < n -> ~ Z.prime n -> exists p, Z.prime p /\ (p | n) /\ p * p <= n.
Proof.
  intros Hn Hnp.
  assert (Hnp' : ~ prime n) by (rewrite <- prime_alt; exact Hnp).
  destruct (not_prime_divide n Hn Hnp') as [m [Hm [c Hc]]].
  assert (Hc1 : 1 < c) by nia.
  destruct (Z.le_gt_cases m c) as [L|L].
  - destruct (prime_divisor m ltac:(lia)) as [p [Hp Hd]].
    exists p. split; [exact Hp|]. split.
    + eapply Z.divide_trans; [exact Hd|]. exists c. lia.
    + pose proof (Z.divide_pos_le p m ltac:(lia) Hd).
      pose proof (Z.prime_ge_2 _ Hp). nia.
  - destruct (prime_divisor c Hc1) as [p [Hp Hd]].
    exists p. split; [exact Hp|]. split.
    + eapply Z.divide_trans; [exact Hd|]. exists m. lia.
    + pose proof (Z.divide_pos_le p c ltac:(lia) Hd).
      pose proof (Z.prime_ge_2 _ Hp). nia.
Qed.

(** [table] holds every prime up to [bound], and only primes. *)
Definition mem (x : Z) (l : list Z) : bool := existsb (Z.eqb x) l.

Lemma mem_iff x l : mem x l = true <-> In x l.
Proof.
  unfold mem. rewrite existsb_exists. split.
  - intros [y [Hy E]]. apply Z.eqb_eq in E. subst. exact Hy.
  - intros H. exists x. split; [exact H | apply Z.eqb_refl].
Qed.

Fixpoint table_covers (k : nat) (c : Z) (table : list Z) : bool :=
  match k with
  | O => true
  | S k' => (mem c table || negb (prime_check c)) && table_covers k' (c + 1) table
  end.

Lemma table_covers_spec k : forall c table,
  table_covers k c table = true ->
  forall p, Z.prime p -> c <= p < c + Z.of_nat k -> In p table.
Proof.
  induction k as [|k IH]; intros c table H p Hp Hr; [lia|].
  cbn [table_covers] in H. apply andb_true_iff in H. destruct H as [H1 H2].
  destruct (Z.eq_dec p c) as [->|Hne].
  - apply orb_true_iff in H1. destruct H1 as [H1|H1]; [apply mem_iff; exact H1|].
    apply prime_check_iff in Hp. rewrite Hp in H1. discriminate.
  - apply (IH (c + 1) table H2 p Hp). lia.
Qed.

Lemma small_primes_complete p :
  Z.prime p -> p <= 40 -> In p Primes64.small_primes.
Proof.
  intros Hp Hle. pose proof (Z.prime_ge_2 _ Hp).
  apply (table_covers_spec 39 2); [vm_compute; reflexivity | exact Hp | lia].
Qed.

Lemma SMALL_PRIMES_complete p :
  Z.prime p -> p <= 502 -> In p BigPrimes.SMALL_PRIMES.
Proof.
  intros Hp Hle. pose proof (Z.prime_ge_2 _ Hp).
  apply (table_covers_spec 501 2); [vm_compute; reflexivity | exact Hp | lia].
Qed.

Lemma small_primes_prime p : In p Primes64.small_primes -> Z.prime p.
Proof.
  intros H. apply prime_check_iff.
  assert (F : forallb prime_check Primes64.small_primes = true)
    by (vm_compute; reflexivity).
  rewrite forallb_forall in F. apply F. exact H.
Qed.

Lemma SMALL_PRIMES_prime p : In p BigPrimes.SMALL_PRIMES -> Z.prime p.
Proof.
  intros H. apply prime_check_iff.
  assert (F : forallb prime_check BigPrimes.SMALL_PRIMES = true)
    by (vm_compute; reflexivity).
  rewrite forallb_forall in F. apply F. exact H.
Qed.

(** ** Trial division, range and soundness of the two tests *)

Lemma divide_mod_0 p n : 0 < p -> (p | n) -> n mod p = 0.
Proof. intros Hp [q ->]. apply Z.mod_mul. lia. Qed.

Lemma mod_0_divide p n : 0 < p -> n mod p = 0 -> (p | n).
Proof.
  intros Hp H. exists (n / p). pose proof (Z_div_mod_eq_full n p). lia.
Qed.

Module Primes64Test.
Import Primes64 Primes64Facts.

(** *** Trial division *)

Lemma trial_division_u64_some_true ps n :
  trial_division_u64 ps n = Some true -> In n ps.
Proof.
  induction ps as [|p ps IH]; simpl; [discriminate|].
  destruct (Z.eqb_spec n p) as [E|E]; [intros _; left; congruence|].
  destruct (n mod p =? 0); [discriminate|]. intros H. right. exact (IH H).
Qed.

Lemma trial_division_u64_multiple ps n p :
  Forall (fun q => 0 < q) ps -> ~ In n ps -> In p ps -> (p | n) ->
  trial_division_u64 ps n = Some false.
Proof.
  intros Hpos Hn Hp Hd. induction ps as [|q ps IH]; [contradiction|].
  inversion Hpos as [|? ? Hq Hpos']; subst. cbn [trial_division_u64].
  destruct (Z.eqb_spec n q) as [E|E]; [exfalso; apply Hn; left; congruence|].
  destruct (Z.eqb_spec (n mod q) 0) as [E0|E0]; [reflexivity|].
  destruct Hp as [->|Hp]; [exfalso; apply E0, divide_mod_0; assumption|].
  apply IH; [exact Hpos' | intros H; apply Hn; right; exact H | exact Hp].
Qed.

Lemma small_primes_pos : Forall (fun q => 0 < q) small_primes.
Proof. unfold small_primes. repeat constructor. Qed.

(** A proper multiple of a table prime is never reported prime. *)
Lemma is_prime_u64_multiple tc n p :
  In p small_primes -> (p | n) -> n <> p -> is_prime_u64 tc n = false.
Proof.
  intros Hp Hd Hne. unfold is_prime_u64.
  destruct (Z.ltb_spec n 2) as [L|L]; [reflexivity|].
  rewrite (trial_division_u64_multiple small_primes n p); auto using small_primes_pos.
  intros Hn. apply small_primes_prime in Hn. apply small_primes_prime in Hp.
  pose proof (Z.prime_ge_2 _ Hp). destruct Hn as [_ Hn].
  apply (Hn p); [|exact Hd].
  pose proof (Z.divide_pos_le p n ltac:(lia) Hd). lia.
Qed.

(** What is accepted has no divisor in the table but itself. *)
Lemma is_prime_u64_true_cases tc n :
  is_prime_u64 tc n = true ->
  2 <= n /\
  (In n small_primes \/ Forall (fun p => n <> p /\ n mod p <> 0) small_primes).
Proof.
  unfold is_prime_u64. destruct (Z.ltb_spec n 2) as [L|L]; [discriminate|].
  destruct (trial_division_u64 small_primes n) as [[|]|] eqn:T; intros H;
    try discriminate.
  - split; [exact L|]. left. apply trial_division_u64_some_true. exact T.
  - split; [exact L|]. right. apply trial_division_u64_none. exact T.
Qed.

(** Below 41^2 the trial division alone decides, with either body of
    [mul_mod]. *)
Lemma is_prime_u64_exact_small tc n :
  n < 1681 -> (is_prime_u64 tc n = true <-> Z.prime n).
Proof.
  intros Hn. split.
  - intros H. apply is_prime_u64_true_cases in H. destruct H as [H2 [H|H]].
    + apply small_primes_prime. exact H.
    + destruct (prime_dec n) as [P|P]; [apply prime_alt; exact P|exfalso].
      rewrite <- prime_alt in P.
      destruct (small_prime_factor n ltac:(lia) P) as [p [Hp [Hd Hsq]]].
      pose proof (Z.prime_ge_2 _ Hp).
      assert (Hp40 : p <= 40) by nia.
      pose proof (small_primes_complete p Hp Hp40) as Hin.
      rewrite Forall_forall in H. destruct (H p Hin) as [_ Hm].
      apply Hm, divide_mod_0; [lia|exact Hd].
  - intros Hp. apply is_prime_u64_prime; [exact Hp | unfold two64; lia|].
    right. lia.
Qed.

(** *** Range of the modular operations, with either body *)

Lemma mul_mod_range tc a b md :
  0 < md < two64 -> 0 <= mul_mod tc a b md < md.
Proof.
  intros Hm. destruct tc; unfold mul_mod.
  - apply Z.mod_pos_bound. lia.
  - pose proof (Z.mod_pos_bound (wrap128 (a * b)) md ltac:(lia)) as H.
    rewrite wrap64_small; lia.
Qed.

Lemma pow_mod_loop_range tc md fuel : forall res a d,
  0 < md < two64 -> 0 <= res < md ->
  0 <= pow_mod_loop tc fuel res a d md < md.
Proof.
  induction fuel as [|fuel IH]; intros res a d Hm Hr; [exact Hr|].
  cbn [pow_mod_loop]. destruct (d =? 0); [exact Hr|].
  apply IH; [exact Hm|].
  destruct (Z.land d 1 =? 0); [exact Hr | apply mul_mod_range; exact Hm].
Qed.

Lemma pow_mod_range tc a d md :
  2 <= md < two64 -> 0 <= pow_mod tc a d md < md.
Proof.
  intros Hm. unfold pow_mod. apply pow_mod_loop_range; lia.
Qed.

(** *** What an accepted number satisfies *)

(** [n] is a strong probable prime to base [a]: with n - 1 = d * 2^s and d
    odd, a^d is 1 or one of a^d, a^(2d), ..., a^(2^(s-1) d) is -1 modulo n. *)
Definition strong_probable_prime (n a : Z) : Prop :=
  exists d s,
    0 < d /\ d mod 2 = 1 /\ 0 <= s /\ n - 1 = d * 2 ^ s /\
    (a ^ d mod n = 1 \/ exists r, 0 <= r < s /\ a ^ (d * 2 ^ r) mod n = n - 1).

Lemma square_loop_u64_sound tc n a d s fuel : forall r x,
  exact tc n -> 0 < n < two64 -> 0 <= d -> 1 <= r ->
  x = a ^ (d * 2 ^ (r - 1)) mod n ->
  square_loop_u64 tc fuel r s x n = false ->
  exists r', r <= r' < s /\ a ^ (d * 2 ^ r') mod n = n - 1.
Proof.
  induction fuel as [|fuel IH]; intros r x Hx Hn Hd Hr Ex H; [discriminate|].
  cbn [square_loop_u64] in H.
  destruct (Z.ltb_spec r s) as [E|E]; [|discriminate].
  assert (Hx' : mul_mod tc x x n = a ^ (d * 2 ^ r) mod n).
  { assert (0 <= x < n) by (subst x; apply Z.mod_pos_bound; lia).
    rewrite mul_mod_exact by (try assumption; lia).
    subst x. rewrite <- Z.mul_mod by lia.
    rewrite <- pow_two_succ by lia.
    replace (r - 1 + 1) with r by lia. reflexivity. }
  destruct (Z.eqb_spec (mul_mod tc x x n) (n - 1)) as [E1|E1].
  - exists r. split; [lia|]. rewrite <- Hx'. exact E1.
  - apply IH in H; try assumption; try lia.
    + destruct H as [r' [Hr' H]]. exists r'. split; [lia|exact H].
    + rewrite Hx'. replace (r + 1 - 1) with r by lia. reflexivity.
Qed.

Lemma bases_loop_sound tc n d s bs :
  exact tc n -> 2 <= n < two64 -> 0 < d -> 1 <= s -> n - 1 = d * 2 ^ s ->
  bases_loop tc bs n d s = true ->
  forall a, In a bs -> a mod n <> 0 ->
    a ^ d mod n = 1 \/ exists r, 0 <= r < s /\ a ^ (d * 2 ^ r) mod n = n - 1.
Proof.
  intros Hx Hn Hd Hs E.
  assert (Hdn : d < two64).
  { pose proof (Z.pow_pos_nonneg 2 s ltac:(lia) ltac:(lia)). nia. }
  induction bs as [|b bs IH]; intros H a Ha Hnz; [contradiction|].
  cbn [bases_loop] in H.
  assert (Hrest : bases_loop tc bs n d s = true ->
                  In a bs ->
                  a ^ d mod n = 1 \/
                  exists r, 0 <= r < s /\ a ^ (d * 2 ^ r) mod n = n - 1)
    by (intros; apply IH; assumption).
  destruct (Z.eqb_spec (b mod n) 0) as [E0|E0].
  { destruct Ha as [->|Ha]; [contradiction|auto]. }
  rewrite pow_mod_spec in H by (try assumption; lia).
  destruct (Z.eqb_spec (b ^ d mod n) 1) as [E1|E1].
  { cbn [orb] in H. destruct Ha as [->|Ha]; [left; exact E1|auto]. }
  destruct (Z.eqb_spec (b ^ d mod n) (n - 1)) as [E2|E2].
  { cbn [orb] in H. destruct Ha as [->|Ha]; [|auto].
    right. exists 0. split; [lia|]. rewrite Z.pow_0_r, Z.mul_1_r. exact E2. }
  cbn [orb] in H.
  destruct (square_loop_u64 tc (Z.to_nat s) 1 s (b ^ d mod n) n) eqn:Q;
    [discriminate|].
  destruct Ha as [->|Ha]; [|auto].
  apply (square_loop_u64_sound tc n a d s) in Q; try assumption; try lia.
  - destruct Q as [r [Hr Q]]. right. exists r. split; [lia|exact Q].
  - rewrite Z.sub_diag, Z.pow_0_r, Z.mul_1_r. reflexivity.
Qed.

(** Where [mul_mod] is exact, what is_prime_u64 accepts outside the table is
    a strong probable prime to each of the seven bases. *)
Lemma is_prime_u64_sound tc n :
  exact tc n -> n < two64 -> is_prime_u64 tc n = true ->
  In n small_primes \/
  (Forall (fun p => n <> p /\ n mod p <> 0) small_primes /\
   forall a, In a bases -> a mod n <> 0 -> strong_probable_prime n a).
Proof.
  intros Hx Hn H. unfold is_prime_u64 in H.
  destruct (Z.ltb_spec n 2) as [L|L]; [discriminate|].
  destruct (trial_division_u64 small_primes n) as [[|]|] eqn:T;
    try discriminate.
  { left. apply trial_division_u64_some_true. exact T. }
  right. apply trial_division_u64_none in T. split; [exact T|].
  assert (Hodd : n mod 2 <> 0).
  { inversion T as [|? ? [_ T2] _]; subst. exact T2. }
  destruct (decompose_loop_u64 64 (n - 1) 0) as [d s] eqn:Ed.
  apply decompose_loop_u64_spec in Ed;
    [|unfold two64 in Hn; change (2 ^ Z.of_nat 64) with 18446744073709551616; lia|lia].
  destruct Ed as (Hd1 & Hd & Hs & Ed). rewrite Z.sub_0_r in Ed.
  assert (Hs1 : 1 <= s).
  { destruct (Z.eq_dec s 0) as [->|]; [|lia].
    rewrite Z.pow_0_r in Ed. lia. }
  intros a Ha Hnz. exists d, s.
  split; [exact Hd|]. split; [exact Hd1|]. split; [lia|]. split; [exact Ed|].
  apply (bases_loop_sound tc n d s bases); try assumption; lia.
Qed.

End Primes64Test.

Module BigTest.
Import BigPrimes BigFacts.

Lemma trial_division_some_true ps n :
  trial_division ps n = Some true -> In n ps.
Proof.
  induction ps as [|p ps IH]; simpl; [discriminate|].
  destruct (Z.eqb_spec n p) as [E|E]; [intros _; left; congruence|].
  destruct (Z.rem n p =? 0); [discriminate|]. intros H. right. exact (IH H).
Qed.

Lemma trial_division_multiple ps n p :
  Forall (fun q => 0 < q) ps -> ~ In n ps -> In p ps -> (p | n) ->
  trial_division ps n = Some false.
Proof.
  intros Hpos Hn Hp Hd. induction ps as [|q ps IH]; [contradiction|].
  inversion Hpos as [|? ? Hq Hpos']; subst. cbn [trial_division].
  destruct (Z.eqb_spec n q) as [E|E]; [exfalso; apply Hn; left; congruence|].
  destruct (Z.eqb_spec (Z.rem n q) 0) as [E0|E0]; [reflexivity|].
  destruct Hp as [->|Hp].
  - exfalso. apply E0. destruct Hd as [c ->]. apply Z.rem_mul. lia.
  - apply IH; [exact Hpos' | intros H; apply Hn; right; exact H | exact Hp].
Qed.

Lemma SMALL_PRIMES_pos : Forall (fun q => 0 < q) SMALL_PRIMES.
Proof.
  eapply Forall_impl; [|exact SMALL_PRIMES_gt_1]. cbv beta. intros. lia.
Qed.

Lemma trial_division_multiple_table n p :
  2 <= n -> In p SMALL_PRIMES -> (p | n) -> n <> p ->
  trial_division SMALL_PRIMES n = Some false.
Proof.
  intros Hn2 Hp Hd Hne.
  apply (trial_division_multiple SMALL_PRIMES n p); auto using SMALL_PRIMES_pos.
  intros Hn. apply SMALL_PRIMES_prime in Hn. apply SMALL_PRIMES_prime in Hp.
  pose proof (Z.prime_ge_2 _ Hp). destruct Hn as [_ Hn].
  apply (Hn p); [|exact Hd].
  pose proof (Z.divide_pos_le p n ltac:(lia) Hd). lia.
Qed.

Section WithEngine.
Context {engine : Type} {D : Dist64 engine}.

(** The trial division of is_prime repeats that of miller_rabin. *)
Lemma is_prime_miller_rabin n (g : engine) :
  is_prime n g = miller_rabin n 32 g.
Proof.
  unfold is_prime, miller_rabin.
  destruct (n <? 2); [reflexivity|].
  destruct (trial_division SMALL_PRIMES n) as [b|]; reflexivity.
Qed.

(** A proper multiple of a table prime is never reported prime, by no
    engine and for no number of rounds. *)
Lemma miller_rabin_multiple n rounds (g : engine) p :
  In p SMALL_PRIMES -> (p | n) -> n <> p ->
  miller_rabin n rounds g = (false, g).
Proof.
  intros Hp Hd Hne. unfold miller_rabin.
  destruct (Z.ltb_spec n 2) as [L|L]; [reflexivity|].
  rewrite (trial_division_multiple_table n p); auto.
Qed.

Lemma miller_rabin_true_cases n rounds (g : engine) :
  fst (miller_rabin n rounds g) = true ->
  2 <= n /\
  (In n SMALL_PRIMES \/ Forall (fun p => n <> p /\ Z.rem n p <> 0) SMALL_PRIMES).
Proof.
  unfold miller_rabin. destruct (Z.ltb_spec n 2) as [L|L]; [discriminate|].
  destruct (trial_division SMALL_PRIMES n) as [[|]|] eqn:T; intros H;
    try discriminate.
  - split; [exact L|]. left. apply trial_division_some_true. exact T.
  - split; [exact L|]. right. apply trial_division_none. exact T.
Qed.

(** Below 503^2 the answer does not depend on the engine: it is the
    primality of n. *)
Lemma miller_rabin_exact_small n rounds (g : engine) :
  n < 253009 -> (fst (miller_rabin n rounds g) = true <-> Z.prime n).
Proof.
  intros Hn. split.
  - intros H. apply miller_rabin_true_cases in H. destruct H as [H2 [H|H]].
    + apply SMALL_PRIMES_prime. exact H.
    + destruct (prime_dec n) as [P|P]; [apply prime_alt; exact P|exfalso].
      rewrite <- prime_alt in P.
      destruct (small_prime_factor n ltac:(lia) P) as [p [Hp [Hd Hsq]]].
      pose proof (Z.prime_ge_2 _ Hp).
      assert (Hp502 : p <= 502) by nia.
      pose proof (SMALL_PRIMES_complete p Hp Hp502) as Hin.
      rewrite Forall_forall in H. destruct (H p Hin) as [_ Hm].
      apply Hm. destruct Hd as [c ->]. apply Z.rem_mul. lia.
  - intros Hp. apply miller_rabin_prime; [exact Hp|].
    pose proof (Z.prime_ge_2 _ Hp).
    pose proof (Z.log2_le_mono n 253009 ltac:(lia)) as Hl.
    change (Z.log2 253009) with 17 in Hl. unfold two32. lia.
Qed.

End WithEngine.
End BigTest.

(** ** The scans of the two generators are complete *)

Module Primes64Scan.
Import Primes64 Primes64Facts Primes64GenerateFacts.

Lemma generate_loop_u64_more_fuel tc fuel k : forall n primes count l,
  generate_loop_u64 tc fuel n primes count = Some l ->
  generate_loop_u64 tc (fuel + k) n primes count = Some l.
Proof.
  induction fuel as [|fuel IH]; intros n primes count l H; [discriminate|].
  cbn [Nat.add generate_loop_u64] in *.
  destruct (_ <? count); [|exact H].
  destruct (n >=? U64_MAX - 2); [exact H|]. apply IH. exact H.
Qed.

(** The scan leaves out no accepted candidate below a value it returned. *)
Lemma generate_loop_u64_complete tc fuel : forall n primes count l,
  0 <= n ->
  generate_loop_u64 tc fuel n primes count = Some l ->
  exists extra,
    l = primes ++ extra /\
    forall p q, In q extra -> n <= p <= q -> (p - n) mod 2 = 0 ->
                is_prime_u64 tc p = true -> In p extra.
Proof.
  induction fuel as [|fuel IH]; intros n primes count l Hn H; [discriminate|].
  cbn [generate_loop_u64] in H.
  destruct (Z.ltb_spec (Z.of_nat (length primes)) count) as [Hc|Hc].
  2:{ inversion H; subst. exists []. rewrite app_nil_r.
      split; [reflexivity|]. intros p q []. }
  destruct (Z.geb_spec n (U64_MAX - 2)) as [Hm|Hm].
  - inversion H; subst. destruct (is_prime_u64 tc n) eqn:P.
    + exists [n]. split; [reflexivity|].
      intros p q [<-|[]] Hp _ _. left. lia.
    + exists []. rewrite app_nil_r. split; [reflexivity|]. intros p q [].
  - unfold U64_MAX in Hm. rewrite wrap64_small in H by (unfold two64; lia).
    pose proof H as H'. apply generate_loop_u64_spec in H'; [|lia].
    destruct H' as (extra0 & El0 & _ & Hf & _).
    apply IH in H; [|lia]. destruct H as (extra & El & Hcomp).
    assert (extra0 = extra) by (rewrite El0 in El; apply app_inv_head in El; exact El).
    subst extra0. rewrite Forall_forall in Hf.
    destruct (is_prime_u64 tc n) eqn:P.
    + exists (n :: extra). rewrite <- app_assoc in El. split; [exact El|].
      intros p q Hq Hp Hpar Hacc.
      destruct (Z.eq_dec p n) as [->|Hne]; [left; reflexivity|right].
      destruct Hq as [<-|Hq]; [lia|].
      apply (Hcomp p q Hq); [lia| |exact Hacc].
      replace (p - (n + 2)) with (p - n - 2) by lia. lia.
    + exists extra. split; [exact El|].
      intros p q Hq Hp Hpar Hacc.
      destruct (Z.eq_dec p n) as [->|Hne]; [congruence|].
      apply (Hcomp p q Hq); [lia| |exact Hacc].
      replace (p - (n + 2)) with (p - n - 2) by lia. lia.
Qed.

Lemma is_prime_u64_max tc : is_prime_u64 tc U64_MAX = false.
Proof. destruct tc; vm_compute; reflexivity. Qed.

(** A result shorter than [count] holds every accepted candidate up to the
    end of the range. *)
Lemma generate_loop_u64_short tc fuel : forall n primes count l,
  0 <= n ->
  generate_loop_u64 tc fuel n primes count = Some l ->
  Z.of_nat (length l) < count ->
  exists extra,
    l = primes ++ extra /\
    forall p, n <= p <= U64_MAX -> (p - n) mod 2 = 0 ->
              is_prime_u64 tc p = true -> In p extra.
Proof.
  induction fuel as [|fuel IH]; intros n primes count l Hn H Hlen; [discriminate|].
  cbn [generate_loop_u64] in H.
  destruct (Z.ltb_spec (Z.of_nat (length primes)) count) as [Hc|Hc].
  2:{ inversion H; subst. lia. }
  destruct (Z.geb_spec n (U64_MAX - 2)) as [Hm|Hm].
  - assert (Hcases : forall p, n <= p <= U64_MAX -> (p - n) mod 2 = 0 ->
                               is_prime_u64 tc p = true -> p = n).
    { intros p Hp Hpar Hacc. unfold U64_MAX in *.
      destruct (Z.eq_dec p 18446744073709551615) as [->|Hne]; [|lia].
      destruct (Z.eq_dec n 18446744073709551615) as [->|Hne']; [reflexivity|].
      pose proof (is_prime_u64_max tc) as Hmax. unfold U64_MAX in Hmax.
      congruence. }
    inversion H; subst. destruct (is_prime_u64 tc n) eqn:P.
    + exists [n]. split; [reflexivity|]. intros p Hp Hpar Hacc.
      left. symmetry. apply Hcases; assumption.
    + exists []. rewrite app_nil_r. split; [reflexivity|].
      intros p Hp Hpar Hacc. rewrite (Hcases p Hp Hpar Hacc) in Hacc. congruence.
  - unfold U64_MAX in Hm. rewrite wrap64_small in H by (unfold two64; lia).
    apply IH in H; [|lia|exact Hlen]. destruct H as (extra & El & Hcomp).
    destruct (is_prime_u64 tc n) eqn:P.
    + exists (n :: extra). rewrite <- app_assoc in El. split; [exact El|].
      intros p Hp Hpar Hacc.
      destruct (Z.eq_dec p n) as [->|Hne]; [left; reflexivity|right].
      apply Hcomp; [lia| |exact Hacc].
      replace (p - (n + 2)) with (p - n - 2) by lia. lia.
    + exists extra. split; [exact El|].
      intros p Hp Hpar Hacc.
      destruct (Z.eq_dec p n) as [->|Hne]; [congruence|].
      apply Hcomp; [lia| |exact Hacc].
      replace (p - (n + 2)) with (p - n - 2) by lia. lia.
Qed.

(** The first candidate and the parity every later one keeps. *)
Lemma first_candidate_u64 start p :
  0 <= start <= U64_MAX - 2 -> Z.prime p -> 3 < p -> start <= p <= U64_MAX ->
  let n := next_candidate_u64 start in
  let n' := if n =? 2 then 3 else n in
  0 <= n' <= p /\ (p - n') mod 2 = 0.
Proof.
  intros Hs Hp H3 Hr. cbv zeta.
  pose proof (prime_odd p Hp ltac:(lia)) as Ho.
  pose proof (next_candidate_u64_no_skip start p Hp H3 ltac:(lia) ltac:(lia)) as Hle.
  destruct (Z.eqb_spec (next_candidate_u64 start) 2) as [E|E]; [lia|].
  destruct (Z.le_gt_cases start 2) as [L|L].
  - exfalso. apply E. unfold next_candidate_u64.
    destruct (Z.leb_spec start 2); [reflexivity|lia].
  - pose proof (next_candidate_u64_spec start ltac:(lia)) as S. cbv zeta in S.
    destruct S as (S1 & _ & S3 & _). lia.
Qed.

End Primes64Scan.

Module BigScan.
Import BigPrimes BigFacts BigGenerateFacts.

(** What next_candidate returns above 2: an odd value coprime to 15, at most
    5 above its argument. *)
Lemma next_candidate_spec n :
  2 < n ->
  let r := next_candidate n in
  n <= r <= n + 5 /\ r mod 2 = 1 /\ r mod 3 <> 0 /\ r mod 5 <> 0.
Proof.
  intros Hn. cbv zeta. unfold next_candidate.
  destruct (Z.leb_spec n 2) as [E|E]; [lia|].
  rewrite land_1_mod.
  set (m := if n mod 2 =? 0 then n + 1 else n).
  assert (Hm : n <= m <= n + 1 /\ m mod 2 = 1).
  { subst m. destruct (Z.eqb_spec (n mod 2) 0); lia. }
  destruct (wheel_loop_spec m ltac:(lia)) as [Hp Hr].
  apply passes_spec in Hp; [|lia]. lia.
Qed.

Section WithEngine.
Context {engine : Type} {D : Dist64 engine}.

Lemma generate_loop_more_fuel fuel k : forall n primes count (g : engine) l,
  generate_loop fuel n primes count g = Some l ->
  generate_loop (fuel + k) n primes count g = Some l.
Proof.
  induction fuel as [|fuel IH]; intros n primes count g l H; [discriminate|].
  cbn [Nat.add generate_loop] in *.
  destruct (_ <? count); [|exact H].
  destruct (is_prime n g) as [b g']. apply IH. exact H.
Qed.

(** The scan leaves out no value that every engine state accepts, below a
    value it returned. *)
Lemma generate_loop_complete fuel : forall n primes count (g : engine) l,
  generate_loop fuel n primes count g = Some l ->
  exists extra,
    l = primes ++ extra /\
    forall p q, In q extra -> n <= p <= q -> (p - n) mod 2 = 0 ->
                (forall g', fst (is_prime p g') = true) -> In p extra.
Proof.
  induction fuel as [|fuel IH]; intros n primes count g l H; [discriminate|].
  cbn [generate_loop] in H.
  destruct (Z.ltb_spec (Z.of_nat (length primes)) count) as [Hc|Hc].
  2:{ inversion H; subst. exists []. rewrite app_nil_r.
      split; [reflexivity|]. intros p q []. }
  destruct (is_prime n g) as [b g'] eqn:P.
  pose proof H as H'. apply generate_loop_spec in H'.
  destruct H' as (extra0 & El0 & _ & Hf & _).
  apply IH in H. destruct H as (extra & El & Hcomp).
  assert (extra0 = extra) by (rewrite El0 in El; apply app_inv_head in El; exact El).
  subst extra0. rewrite Forall_forall in Hf.
  destruct b.
  - exists (n :: extra). rewrite <- app_assoc in El. split; [exact El|].
    intros p q Hq Hp Hpar Hacc.
    destruct (Z.eq_dec p n) as [->|Hne]; [left; reflexivity|right].
    destruct Hq as [<-|Hq]; [lia|].
    apply (Hcomp p q Hq); [lia| |exact Hacc].
    replace (p - (n + 2)) with (p - n - 2) by lia. lia.
  - exists extra. split; [exact El|].
    intros p q Hq Hp Hpar Hacc.
    destruct (Z.eq_dec p n) as [->|Hne].
    { specialize (Hacc g). rewrite P in Hacc. discriminate. }
    apply (Hcomp p q Hq); [lia| |exact Hacc].
    replace (p - (n + 2)) with (p - n - 2) by lia. lia.
Qed.

Lemma first_candidate start p :
  Z.prime p -> 5 < p -> start <= p ->
  let n := next_candidate start in
  let n' := if n =? 2 then 3 else n in
  n' <= p /\ (p - n') mod 2 = 0.
Proof.
  intros Hp H5 Hr. cbv zeta.
  pose proof (prime_odd p Hp ltac:(lia)) as Ho.
  pose proof (next_candidate_no_skip start p Hp H5 Hr) as Hle.
  destruct (Z.eqb_spec (next_candidate start) 2) as [E|E]; [lia|].
  destruct (Z.le_gt_cases start 2) as [L|L].
  - exfalso. apply E. unfold next_candidate.
    destruct (Z.leb_spec start 2); [reflexivity|lia].
  - pose proof (next_candidate_spec start L) as S. cbv zeta in S. lia.
Qed.

End WithEngine.
End BigScan.

Lemma generate_loop_u64_upper tc fuel : forall n primes count l,
  0 <= n <= U64_MAX ->
  Primes64.generate_loop_u64 tc fuel n primes count = Some l ->
  exists extra, l = primes ++ extra /\ Forall (fun p => p <= U64_MAX) extra.
Proof.
  induction fuel as [|fuel IH]; intros n primes count l Hn H; [discriminate|].
  cbn [Primes64.generate_loop_u64] in H.
  destruct (_ <? count).
  2:{ inversion H; subst. exists []. rewrite app_nil_r. split; [reflexivity|constructor]. }
  destruct (Z.geb_spec n (U64_MAX - 2)) as [Hm|Hm].
  - inversion H; subst. destruct (Primes64.is_prime_u64 tc n).
    + exists [n]. split; [reflexivity|]. constructor; [lia|constructor].
    + exists []. rewrite app_nil_r. split; [reflexivity|constructor].
  - unfold U64_MAX in *.
    rewrite Primes64Facts.wrap64_small in H by (unfold two64; lia).
    apply IH in H; [|lia]. destruct H as (extra & El & Hf).
    destruct (Primes64.is_prime_u64 tc n).
    + exists (n :: extra). rewrite <- app_assoc in El. split; [exact El|].
      constructor; [lia|exact Hf].
    + exists extra. split; [exact El|exact Hf].
Qed.

(** ** Further properties of the 64-bit program *)

(** X1: the 128-bit body of mul_mod returns (a * b) mod m for all 64-bit a, b
    and every modulus m >= 1. *)
Theorem X1_mul_mod_wide_exact :
  forall a b md,
    0 <= a < 2 ^ 64 -> 0 <= b < 2 ^ 64 -> 0 < md < 2 ^ 64 ->
    Primes64.mul_mod Primes64.GNU a b md = (a * b) mod md.
Proof. intros a b md. apply Primes64Facts.mul_mod_gnu_spec. Qed.

Lemma X1_mul_mod_wide_exact_witness :
  Primes64.mul_mod Primes64.GNU U64_MAX (2 ^ 63) (U64_MAX - 58)
  = (U64_MAX * 2 ^ 63) mod (U64_MAX - 58).
Proof.
  apply X1_mul_mod_wide_exact; vm_compute; split; congruence.
Defined.

(** X2: the doubling loop of mul_mod (the MSVC body) returns (a * b) mod m
    for all 64-bit a, b as long as the modulus does not exceed 2^63. *)
Theorem X2_mul_mod_doubling_exact_to_2_63 :
  forall a b md,
    0 <= a < 2 ^ 64 -> 0 <= b < 2 ^ 64 -> 0 < md <= 2 ^ 63 ->
    Primes64.mul_mod Primes64.MSVC a b md = (a * b) mod md.
Proof.
  intros a b md Ha Hb Hm. apply Primes64Facts.mul_mod_msvc_spec; [lia|exact Hb|exact Hm].
Qed.

Lemma X2_mul_mod_doubling_exact_to_2_63_witness :
  Primes64.mul_mod Primes64.MSVC U64_MAX (U64_MAX - 1) (2 ^ 63)
  = (U64_MAX * (U64_MAX - 1)) mod 2 ^ 63.
Proof.
  apply X2_mul_mod_doubling_exact_to_2_63; vm_compute; split; congruence.
Defined.

(** X3: pow_mod returns a^d mod m for every modulus m >= 2 at which mul_mod
    is exact: any 64-bit m with the 128-bit body, m <= 2^63 with the
    doubling loop. *)
Theorem X3_pow_mod_exact :
  forall tc a d md,
    tc = Primes64.GNU \/ md <= 2 ^ 63 ->
    2 <= md < 2 ^ 64 -> 0 <= d < 2 ^ 64 ->
    Primes64.pow_mod tc a d md = a ^ d mod md.
Proof. intros tc a d md Hx. apply Primes64Facts.pow_mod_spec. exact Hx. Qed.

Lemma X3_pow_mod_exact_witness :
  Primes64.pow_mod Primes64.MSVC 7 560 561 = 7 ^ 560 mod 561.
Proof.
  apply X3_pow_mod_exact; [right | |]; vm_compute; try split; congruence.
Defined.

(** X4: with either body of mul_mod, wrapped products included, pow_mod
    returns a value below the modulus, for every modulus m >= 2. *)
Theorem X4_pow_mod_below_modulus :
  forall tc a d md,
    2 <= md < 2 ^ 64 -> 0 <= Primes64.pow_mod tc a d md < md.
Proof. intros tc a d md. apply Primes64Test.pow_mod_range. Qed.

Lemma X4_pow_mod_below_modulus_witness :
  0 <= Primes64.pow_mod Primes64.MSVC (2 ^ 63) 5 U64_MAX < U64_MAX.
Proof.
  apply X4_pow_mod_below_modulus. vm_compute; split; congruence.
Defined.

(** X5: is_prime_u64 returns false at every proper multiple of an entry of
    its table of small primes, with either body of mul_mod. *)
Theorem X5_is_prime_u64_rejects_table_multiples :
  forall tc n p,
    In p Primes64.small_primes -> (p | n) -> n <> p ->
    Primes64.is_prime_u64 tc n = false.
Proof. intros tc n p. apply Primes64Test.is_prime_u64_multiple. Qed.

Lemma X5_is_prime_u64_rejects_table_multiples_witness :
  Primes64.is_prime_u64 Primes64.GNU (37 * 1000003) = false.
Proof.
  apply (X5_is_prime_u64_rejects_table_multiples Primes64.GNU (37 * 1000003) 37).
  - vm_compute. tauto.
  - exists 1000003. reflexivity.
  - discriminate.
Defined.

(** X6: is_prime_u64 returns true at every prime n below 2^64 at which
    mul_mod is exact (128-bit body, or n <= 2^63 with the doubling loop):
    there the test has no false negative. *)
Theorem X6_is_prime_u64_accepts_primes :
  forall tc n,
    Z.prime n -> n < 2 ^ 64 -> tc = Primes64.GNU \/ n <= 2 ^ 63 ->
    Primes64.is_prime_u64 tc n = true.
Proof. intros tc n. apply Primes64Facts.is_prime_u64_prime. Qed.

Lemma X6_is_prime_u64_accepts_primes_witness :
  Primes64.is_prime_u64 Primes64.GNU proth_27_59 = true.
Proof.
  apply X6_is_prime_u64_accepts_primes.
  - exact prime_proth_27_59.
  - reflexivity.
  - left. reflexivity.
Defined.

(** X7: where mul_mod is exact, a value is_prime_u64 accepts is an entry of
    the table, or it has no divisor in the table and is a strong probable
    prime to each of the seven bases that it does not divide. *)
Theorem X7_is_prime_u64_accepts_strong_probable_primes :
  forall tc n,
    tc = Primes64.GNU \/ n <= 2 ^ 63 -> n < 2 ^ 64 ->
    Primes64.is_prime_u64 tc n = true ->
    In n Primes64.small_primes \/
    (Forall (fun p => n <> p /\ n mod p <> 0) Primes64.small_primes /\
     forall a, In a Primes64.bases -> a mod n <> 0 ->
               Primes64Test.strong_probable_prime n a).
Proof. intros tc n. apply Primes64Test.is_prime_u64_sound. Qed.

Lemma X7_is_prime_u64_accepts_strong_probable_primes_witness :
  In 1000003 Primes64.small_primes \/
  (Forall (fun p => 1000003 <> p /\ 1000003 mod p <> 0) Primes64.small_primes /\
   forall a, In a Primes64.bases -> a mod 1000003 <> 0 ->
             Primes64Test.strong_probable_prime 1000003 a).
Proof.
  apply (X7_is_prime_u64_accepts_strong_probable_primes Primes64.MSVC).
  - right. vm_compute. congruence.
  - reflexivity.
  - vm_compute. reflexivity.
Defined.

(** X8: below 41^2 = 1681 is_prime_u64 is exact with either body of mul_mod:
    it returns true exactly at the primes. *)
Theorem X8_is_prime_u64_exact_below_1681 :
  forall tc n,
    n < 1681 -> (Primes64.is_prime_u64 tc n = true <-> Z.prime n).
Proof. intros tc n. apply Primes64Test.is_prime_u64_exact_small. Qed.

Lemma X8_is_prime_u64_exact_below_1681_witness :
  Primes64.is_prime_u64 Primes64.MSVC 1679 = true <-> Z.prime 1679.
Proof. apply X8_is_prime_u64_exact_below_1681. reflexivity. Defined.

(** X9: for 2 < n <= 2^64 - 3, next_candidate_u64 returns an odd value that
    is no multiple of 3, at most 3 above n, and steps only over even values
    and multiples of 3. *)
Theorem X9_next_candidate_u64_shape :
  forall n,
    2 < n <= U64_MAX - 2 ->
    let r := Primes64.next_candidate_u64 n in
    r mod 2 = 1 /\ r mod 3 <> 0 /\ n <= r <= n + 3 /\ r <= U64_MAX /\
    forall m, n <= m < r -> m mod 2 = 0 \/ m mod 3 = 0.
Proof. intros n. apply Primes64GenerateFacts.next_candidate_u64_spec. Qed.

Lemma X9_next_candidate_u64_shape_witness :
  let r := Primes64.next_candidate_u64 (U64_MAX - 7) in
  r mod 2 = 1 /\ r mod 3 <> 0 /\ U64_MAX - 7 <= r <= U64_MAX - 7 + 3 /\
  r <= U64_MAX /\
  forall m, U64_MAX - 7 <= m < r -> m mod 2 = 0 \/ m mod 3 = 0.
Proof.
  apply X9_next_candidate_u64_shape. vm_compute. split; congruence.
Defined.

(** X10: next_candidate_u64 is idempotent at every n up to 2^64 - 3. *)
Theorem X10_next_candidate_u64_idempotent_to_ceiling :
  forall n,
    0 <= n <= U64_MAX - 2 ->
    Primes64.next_candidate_u64 (Primes64.next_candidate_u64 n)
    = Primes64.next_candidate_u64 n.
Proof. intros n. apply Primes64GenerateFacts.next_candidate_u64_idempotent. Qed.

Lemma X10_next_candidate_u64_idempotent_to_ceiling_witness :
  Primes64.next_candidate_u64 (Primes64.next_candidate_u64 (U64_MAX - 2))
  = Primes64.next_candidate_u64 (U64_MAX - 2).
Proof.
  apply X10_next_candidate_u64_idempotent_to_ceiling. vm_compute. split; congruence.
Defined.

(** X11: next_candidate_u64 steps over no prime above 3: a prime p > 3 of the
    64-bit range with n <= p is not below next_candidate_u64(n). *)
Theorem X11_next_candidate_u64_keeps_primes_above_3 :
  forall n p,
    Z.prime p -> 3 < p -> 0 <= n <= p -> p <= U64_MAX ->
    Primes64.next_candidate_u64 n <= p.
Proof. intros n p. apply Primes64GenerateFacts.next_candidate_u64_no_skip. Qed.

Lemma X11_next_candidate_u64_keeps_primes_above_3_witness :
  Primes64.next_candidate_u64 574 <= 577.
Proof.
  apply X11_next_candidate_u64_keeps_primes_above_3.
  - exact prime_577.
  - reflexivity.
  - vm_compute. split; congruence.
  - vm_compute. congruence.
Defined.

(** X12: the loop of generate_primes_u64 ends from every candidate of the
    64-bit range, for every count and every vector collected so far: within
    (2^64 - 1 - n) / 2 + 1 turns the count is reached or the clamp breaks. *)
Theorem X12_generate_loop_u64_ends :
  forall tc fuel n primes count,
    0 <= n <= U64_MAX -> U64_MAX - n < 2 * Z.of_nat fuel ->
    exists l, Primes64.generate_loop_u64 tc fuel n primes count = Some l.
Proof.
  intros tc fuel n primes count.
  apply Primes64GenerateFacts.generate_loop_u64_terminates.
Qed.

Lemma X12_generate_loop_u64_ends_witness :
  exists l,
    Primes64.generate_loop_u64 Primes64.MSVC 40 (U64_MAX - 70) [] 1000 = Some l.
Proof.
  apply X12_generate_loop_u64_ends; vm_compute; try split; congruence.
Defined.

(** X13: for a count of at least 1 and a start up to 2^64 - 3, what
    generate_primes_u64 returns is strictly increasing, holds only values
    from start on that is_prime_u64 accepts, and has at most count values. *)
Theorem X13_generate_primes_u64_result :
  forall tc fuel start count l,
    0 <= start <= U64_MAX - 2 -> 1 <= count ->
    Primes64.generate_primes_u64 tc fuel start count = Some l ->
    StronglySorted Z.lt l /\
    Forall (fun p => start <= p /\ Primes64.is_prime_u64 tc p = true) l /\
    Z.of_nat (length l) <= count.
Proof.
  intros tc fuel start count l.
  apply Primes64GenerateFacts.generate_primes_u64_spec.
Qed.

Lemma X13_generate_primes_u64_result_witness :
  StronglySorted Z.lt [17; 19; 23] /\
  Forall (fun p => 14 <= p /\ Primes64.is_prime_u64 Primes64.GNU p = true)
         [17; 19; 23] /\
  Z.of_nat (length [17; 19; 23]) <= 3.
Proof.
  apply (X13_generate_primes_u64_result Primes64.GNU 10 14 3).
  - vm_compute. split; congruence.
  - vm_compute. congruence.
  - vm_compute. reflexivity.
Defined.

(** X14: generate_primes_u64 returns consecutive primes: where mul_mod is
    exact, every prime p > 3 between start and a returned value is returned
    too. *)
Theorem X14_generate_primes_u64_consecutive :
  forall tc fuel start count l p q,
    0 <= start <= U64_MAX - 2 ->
    Primes64.generate_primes_u64 tc fuel start count = Some l ->
    In q l -> Z.prime p -> 3 < p -> start <= p <= q ->
    tc = Primes64.GNU \/ p <= 2 ^ 63 ->
    In p l.
Proof.
  intros tc fuel start count l p q Hs H Hq Hp H3 Hr Hx.
  unfold Primes64.generate_primes_u64 in H.
  assert (Hrange : 0 <= Primes64.next_candidate_u64 start <= U64_MAX).
  { apply Primes64GenerateFacts.next_candidate_u64_range. lia. }
  set (n := Primes64.next_candidate_u64 start) in *.
  set (st := if n =? 2 then ([2], 3) else ([], n)) in *.
  assert (Hst : 0 <= snd st <= U64_MAX /\
                (forall x, In x (fst st) -> x = 2)).
  { subst st. destruct (n =? 2); cbn [fst snd].
    - split; [unfold U64_MAX; lia|]. intros x [<-|[]]. reflexivity.
    - split; [exact Hrange|]. intros x []. }
  destruct Hst as [Hn' Hfst].
  assert (Hst' : st = (fst st, snd st)) by (destruct st; reflexivity).
  rewrite Hst' in H.
  pose proof (Primes64Scan.generate_loop_u64_complete tc fuel _ _ _ _
                (proj1 Hn') H) as (extra & El & Hcomp).
  pose proof (generate_loop_u64_upper tc fuel _ _ _ _ Hn' H)
    as (extra' & El' & Hup).
  assert (extra' = extra) by (rewrite El in El'; apply app_inv_head in El'; congruence).
  subst extra'. subst l. apply in_or_app. right.
  apply in_app_or in Hq. destruct Hq as [Hq|Hq]; [apply Hfst in Hq; lia|].
  assert (Hq64 : q <= U64_MAX) by (rewrite Forall_forall in Hup; apply Hup; exact Hq).
  pose proof (Primes64Scan.first_candidate_u64 start p Hs Hp H3 ltac:(lia)) as F.
  cbv zeta in F. fold n in F.
  assert (Hsnd : snd st = if n =? 2 then 3 else n)
    by (subst st; destruct (n =? 2); reflexivity).
  rewrite <- Hsnd in F. destruct F as [F1 F2].
  apply (Hcomp p q Hq); [lia|exact F2|].
  apply Primes64Facts.is_prime_u64_prime;
    [exact Hp | unfold U64_MAX, two64 in *; lia | exact Hx].
Qed.

Lemma X14_generate_primes_u64_consecutive_witness : In 19 [17; 19; 23].
Proof.
  apply (X14_generate_primes_u64_consecutive Primes64.MSVC 10 14 3 [17; 19; 23] 19 23).
  - vm_compute. split; congruence.
  - vm_compute. reflexivity.
  - vm_compute. tauto.
  - apply prime_check_iff. vm_compute. reflexivity.
  - reflexivity.
  - split; vm_compute; congruence.
  - right. vm_compute. congruence.
Defined.

(** X15: a result of generate_primes_u64 shorter than count holds every odd
    value above 3, from start to 2^64 - 1, that is_prime_u64 accepts: the
    scan stops short only at the end of the range. *)
Theorem X15_generate_primes_u64_short_at_ceiling :
  forall tc fuel start count l p,
    2 < start <= U64_MAX - 2 ->
    Primes64.generate_primes_u64 tc fuel start count = Some l ->
    Z.of_nat (length l) < count ->
    start <= p <= U64_MAX -> 3 < p -> p mod 2 = 1 ->
    Primes64.is_prime_u64 tc p = true ->
    In p l.
Proof.
  intros tc fuel start count l p Hs H Hlen Hp H3 Hodd Hacc.
  unfold Primes64.generate_primes_u64 in H.
  pose proof (Primes64GenerateFacts.next_candidate_u64_spec start Hs) as S.
  cbv zeta in S. destruct S as (S1 & S2 & S3 & S4 & S5).
  set (n := Primes64.next_candidate_u64 start) in *.
  destruct (Z.eqb_spec n 2) as [E|E]; [lia|].
  assert (Hp3 : p mod 3 <> 0).
  { intros E3.
    rewrite (Primes64Test.is_prime_u64_multiple tc p 3) in Hacc;
      [discriminate | vm_compute; tauto | apply mod_0_divide; [lia|exact E3] | lia]. }
  assert (Hnp : n <= p).
  { destruct (Z.le_gt_cases n p) as [L|L]; [exact L|].
    specialize (S5 p ltac:(lia)). lia. }
  pose proof (Primes64Scan.generate_loop_u64_short tc fuel n [] count l
                ltac:(lia) H Hlen) as (extra & El & Hall).
  subst l. cbn [app]. apply Hall; [lia| |exact Hacc]. lia.
Qed.

Lemma X15_generate_primes_u64_short_at_ceiling_witness :
  In (U64_MAX - 58) [U64_MAX - 58].
Proof.
  apply (X15_generate_primes_u64_short_at_ceiling
           Primes64.GNU 100 (U64_MAX - 70) 4 [U64_MAX - 58] (U64_MAX - 58)).
  - vm_compute. split; congruence.
  - vm_compute. reflexivity.
  - vm_compute. reflexivity.
  - vm_compute. split; congruence.
  - reflexivity.
  - reflexivity.
  - vm_compute. reflexivity.
Defined.

(** X16: the 64-bit main ends with exit code 1, the message and no output
    exactly when a start argument is given and std::stoull rejects it,
    whatever the count argument is. *)
Theorem X16_main_u64_exit_1 :
  forall tc fuel argv,
    Primes64.main tc fuel argv
    = Some (Exit 1 [] ["Argument invalide pour start"%string]) <->
    exists prog a1 rest e, argv = prog :: a1 :: rest /\ stoull a1 = Throws e.
Proof.
  intros tc fuel argv. unfold Primes64.main. split.
  - intros H. destruct argv as [|prog [|a1 rest]].
    + destruct (Primes64.generate_primes_u64 tc fuel U64_MAX 100); discriminate.
    + destruct (Primes64.generate_primes_u64 tc fuel U64_MAX 100); discriminate.
    + destruct (stoull a1) as [v|e] eqn:E1.
      * destruct rest as [|a2 rest'].
        -- destruct (Primes64.generate_primes_u64 tc fuel v 100); discriminate.
        -- destruct (stoull a2) as [c|e2]; [|discriminate].
           destruct (Primes64.generate_primes_u64 tc fuel v c); discriminate.
      * exists prog, a1, rest, e. split; [reflexivity|exact E1].
  - intros (prog & a1 & rest & e & -> & E). rewrite E. reflexivity.
Qed.

(** ** Further properties of the unbounded program *)

(** X17: the unbounded main ends with exit code 1, the message and no output
    exactly when a start argument is given and its extraction fails,
    whatever the count argument is. *)
Theorem X17_main_exit_1 :
  forall engine (D : BigPrimes.Dist64 engine) fuel (g : engine) argv extracted,
    BigPrimes.main fuel g argv extracted
    = Some (Exit 1 [] ["Impossible de lire l'entier de départ."%string]) <->
    (exists prog a1 rest, argv = prog :: a1 :: rest) /\ extracted = None.
Proof.
  intros engine D fuel g argv extracted. unfold BigPrimes.main. split.
  - intros H. destruct argv as [|prog [|a1 rest]].
    + destruct (BigPrimes.generate_primes fuel _ 100 g); discriminate.
    + destruct (BigPrimes.generate_primes fuel _ 100 g); discriminate.
    + destruct extracted as [v|].
      * destruct rest as [|a2 rest'].
        -- destruct (BigPrimes.generate_primes fuel v 100 g); discriminate.
        -- destruct (stoull a2) as [c|e2]; [|discriminate].
           destruct (BigPrimes.generate_primes fuel v c g); discriminate.
      * split; [exists prog, a1, rest; reflexivity|reflexivity].
  - intros [(prog & a1 & rest & ->) ->]. reflexivity.
Qed.

(** X18: the unbounded powmod returns base^exp mod m for every non-negative
    base and exponent and every modulus m >= 1. *)
Theorem X18_powmod_exact :
  forall base exp md,
    0 <= base -> 0 <= exp -> 1 <= md ->
    BigPrimes.powmod base exp md = base ^ exp mod md.
Proof. intros base exp md. apply powmod_spec. Qed.

Lemma X18_powmod_exact_witness :
  BigPrimes.powmod 7 560 1 = 7 ^ 560 mod 1.
Proof. apply X18_powmod_exact; vm_compute; congruence. Defined.

(** X19: for 2 <= n with fewer than 2^32 bits, decompose writes n - 1 as
    d * 2^s with d odd. *)
Theorem X19_decompose_odd_part :
  forall n,
    2 <= n -> Z.log2 n < 2 ^ 32 ->
    let d := fst (BigPrimes.decompose n) in
    let s := snd (BigPrimes.decompose n) in
    n - 1 = d * 2 ^ s /\ d mod 2 = 1 /\ 0 < d /\ 0 <= s.
Proof.
  intros n Hn Hl. cbv zeta.
  destruct (BigPrimes.decompose n) as [d s] eqn:E.
  apply BigFacts.decompose_spec in E; [|exact Hn|exact Hl].
  cbn [fst snd]. tauto.
Qed.

Lemma X19_decompose_odd_part_witness :
  let d := fst (BigPrimes.decompose 18446744073713598463) in
  let s := snd (BigPrimes.decompose 18446744073713598463) in
  18446744073713598463 - 1 = d * 2 ^ s /\ d mod 2 = 1 /\ 0 < d /\ 0 <= s.
Proof. apply X19_decompose_odd_part; vm_compute; congruence. Defined.

(** X20: the base random_base draws lies in [2, limit] when limit is above
    2, and is 2 otherwise: for n >= 5 the witness of a round lies in
    [2, n - 2], whatever the engine yields. *)
Theorem X20_random_base_in_range :
  forall engine (D : BigPrimes.Dist64 engine) (g : engine) limit,
    2 <= fst (BigPrimes.random_base limit g) <= Z.max 2 limit.
Proof.
  intros engine D g limit.
  destruct (Z.le_gt_cases limit 2) as [L|L].
  - unfold BigPrimes.random_base.
    destruct (Z.leb_spec limit 2); [cbn [fst]; lia|lia].
  - pose proof (BigFacts.random_base_range limit g ltac:(lia)). lia.
Qed.

(** X21: miller_rabin returns false, without a draw, at every proper
    multiple of an entry of SMALL_PRIMES, for every number of rounds and
    every engine. *)
Theorem X21_miller_rabin_rejects_table_multiples :
  forall engine (D : BigPrimes.Dist64 engine) (g : engine) n rounds p,
    In p BigPrimes.SMALL_PRIMES -> (p | n) -> n <> p ->
    BigPrimes.miller_rabin n rounds g = (false, g).
Proof. intros engine D g n rounds p. apply BigTest.miller_rabin_multiple. Qed.

Lemma X21_miller_rabin_rejects_table_multiples_witness :
  BigPrimes.miller_rabin (499 * 503) 32 (7 : Z) = (false, 7).
Proof.
  apply (X21_miller_rabin_rejects_table_multiples Z lcg 7 (499 * 503) 32 499).
  - vm_compute. tauto.
  - exists 503. reflexivity.
  - discriminate.
Defined.

(** X22: is_prime is miller_rabin with 32 rounds: its own trial division
    changes neither the answer nor the engine. *)
Theorem X22_is_prime_is_miller_rabin_32 :
  forall engine (D : BigPrimes.Dist64 engine) (g : engine) n,
    BigPrimes.is_prime n g = BigPrimes.miller_rabin n 32 g.
Proof. intros engine D g n. apply BigTest.is_prime_miller_rabin. Qed.

(** X23: below 503^2 = 253009 miller_rabin is exact for every engine and
    every number of rounds: it returns true exactly at the primes. *)
Theorem X23_miller_rabin_exact_below_253009 :
  forall engine (D : BigPrimes.Dist64 engine) (g : engine) n rounds,
    n < 253009 ->
    (fst (BigPrimes.miller_rabin n rounds g) = true <-> Z.prime n).
Proof. intros engine D g n rounds. apply BigTest.miller_rabin_exact_small. Qed.

Lemma X23_miller_rabin_exact_below_253009_witness :
  fst (BigPrimes.miller_rabin 251001 0 (7 : Z)) = true <-> Z.prime 251001.
Proof.
  apply (X23_miller_rabin_exact_below_253009 Z lcg). reflexivity.
Defined.

(** X24: above 2, next_candidate returns an odd value that is no multiple
    of 3 or 5, at most 5 above its argument. *)
Theorem X24_next_candidate_shape :
  forall n,
    2 < n ->
    let r := BigPrimes.next_candidate n in
    n <= r <= n + 5 /\ r mod 2 = 1 /\ r mod 3 <> 0 /\ r mod 5 <> 0.
Proof. intros n. apply BigScan.next_candidate_spec. Qed.

Lemma X24_next_candidate_shape_witness :
  let r := BigPrimes.next_candidate 24 in
  24 <= r <= 24 + 5 /\ r mod 2 = 1 /\ r mod 3 <> 0 /\ r mod 5 <> 0.
Proof. apply X24_next_candidate_shape. reflexivity. Defined.

(** X25: the unbounded next_candidate is idempotent at every n. *)
Theorem X25_next_candidate_idempotent :
  forall n,
    BigPrimes.next_candidate (BigPrimes.next_candidate n)
    = BigPrimes.next_candidate n.
Proof. intros n. apply BigGenerateFacts.next_candidate_idempotent. Qed.

(** X26: the unbounded next_candidate steps over no prime above 5. *)
Theorem X26_next_candidate_keeps_primes_above_5 :
  forall n p,
    Z.prime p -> 5 < p -> n <= p -> BigPrimes.next_candidate n <= p.
Proof. intros n p. apply BigGenerateFacts.next_candidate_no_skip. Qed.

Lemma X26_next_candidate_keeps_primes_above_5_witness :
  BigPrimes.next_candidate 573 <= 577.
Proof.
  apply X26_next_candidate_keeps_primes_above_5.
  - exact prime_577.
  - reflexivity.
  - vm_compute. congruence.
Defined.

(** X27: for a count of at least 1, or a start above 2, what generate_primes
    returns is strictly increasing, holds only values from start on that
    is_prime accepted, and has exactly count values. *)
Theorem X27_generate_primes_result :
  forall engine (D : BigPrimes.Dist64 engine) fuel start count (g : engine) l,
    1 <= count \/ (0 <= count /\ 2 < start) ->
    BigPrimes.generate_primes fuel start count g = Some l ->
    StronglySorted Z.lt l /\
    Forall (fun p => start <= p /\
                     exists g', fst (BigPrimes.is_prime p g') = true) l /\
    Z.of_nat (length l) = count.
Proof.
  intros engine D fuel start count g l.
  apply BigGenerateFacts.generate_primes_spec.
Qed.

Lemma X27_generate_primes_result_witness :
  StronglySorted Z.lt [601; 607; 613] /\
  Forall (fun p => 600 <= p /\
                   exists g', fst (BigPrimes.is_prime p g') = true)
         [601; 607; 613] /\
  Z.of_nat (length [601; 607; 613]) = 3.
Proof.
  apply (X27_generate_primes_result Z lcg 10 600 3 2026).
  - left. vm_compute. congruence.
  - vm_compute. reflexivity.
Defined.

(** X28: generate_primes returns consecutive primes: every prime p > 5 with
    fewer than 2^32 bits between start and a returned value is returned
    too, whatever the engine yields. *)
Theorem X28_generate_primes_consecutive :
  forall engine (D : BigPrimes.Dist64 engine) fuel start count (g : engine) l p q,
    BigPrimes.generate_primes fuel start count g = Some l ->
    In q l -> Z.prime p -> 5 < p -> start <= p <= q -> Z.log2 p < 2 ^ 32 ->
    In p l.
Proof.
  intros engine D fuel start count g l p q H Hq Hp H5 Hr Hl.
  unfold BigPrimes.generate_primes in H.
  set (n := BigPrimes.next_candidate start) in *.
  set (st := if n =? 2 then ([2], 3) else ([], n)) in *.
  assert (Hfst : forall x, In x (fst st) -> x = 2).
  { subst st. destruct (n =? 2); cbn [fst].
    - intros x [<-|[]]. reflexivity.
    - intros x []. }
  assert (Hst' : st = (fst st, snd st)) by (destruct st; reflexivity).
  rewrite Hst' in H.
  pose proof (BigScan.generate_loop_complete fuel _ _ _ _ _ H)
    as (extra & El & Hcomp).
  subst l. apply in_or_app. right.
  apply in_app_or in Hq. destruct Hq as [Hq|Hq]; [apply Hfst in Hq; lia|].
  pose proof (BigScan.first_candidate start p Hp H5 ltac:(lia)) as F.
  cbv zeta in F. fold n in F.
  assert (Hsnd : snd st = if n =? 2 then 3 else n)
    by (subst st; destruct (n =? 2); reflexivity).
  rewrite <- Hsnd in F. destruct F as [F1 F2].
  apply (Hcomp p q Hq); [lia|exact F2|].
  intros g'. apply BigFacts.is_prime_prime; [exact Hp|exact Hl].
Qed.

Lemma X28_generate_primes_consecutive_witness : In 607 [601; 607; 613].
Proof.
  apply (X28_generate_primes_consecutive Z lcg 10 600 3 2026 [601; 607; 613] 607 613).
  - vm_compute. reflexivity.
  - vm_compute. tauto.
  - apply prime_check_iff. vm_compute. reflexivity.
  - reflexivity.
  - split; vm_compute; congruence.
  - reflexivity.
Defined.

(** ** What the two mains print *)

Lemma read_digits_nonneg s : forall acc v,
  (forall a, acc = Some a -> 0 <= a) ->
  read_digits s acc = Some v -> 0 <= v.
Proof.
  induction s as [|c r IH]; intros acc v Hacc H; cbn [read_digits] in H.
  - apply Hacc. exact H.
  - unfold digit_of in H.
    destruct ((48 <=? Z.of_N (N_of_ascii c)) && (Z.of_N (N_of_ascii c) <=? 57)) eqn:E.
    + apply andb_true_iff in E. destruct E as [E1 E2].
      apply Z.leb_le in E1. apply (IH _ v) in H; [exact H|].
      intros a Ha. destruct acc as [a0|].
      * specialize (Hacc a0 eq_refl).
        assert (a = 10 * a0 + (Z.of_N (N_of_ascii c) - 48)) by congruence. lia.
      * assert (a = 10 * 0 + (Z.of_N (N_of_ascii c) - 48)) by congruence. lia.
    + apply Hacc. exact H.
Qed.

(** What std::stoull returns fits the 64-bit range. *)
Lemma stoull_range s v : stoull s = Value v -> 0 <= v <= U64_MAX.
Proof.
  unfold stoull.
  set (t := skip_spaces s).
  set (st := match t with
             | String "-"%char r => (true, r)
             | String "+"%char r => (false, r)
             | _ => (false, t)
             end).
  destruct st as [neg r].
  destruct (read_digits r None) as [d|] eqn:E; [|discriminate].
  pose proof (read_digits_nonneg r None d ltac:(discriminate) E) as Hd.
  destruct (Z.gtb_spec d U64_MAX) as [G|G]; [discriminate|].
  intros H. inversion H; subst. destruct neg; [|lia].
  unfold wrap64, two64, U64_MAX in *.
  pose proof (Z.mod_pos_bound (- d) 18446744073709551616 ltac:(lia)). lia.
Qed.

Lemma generate_primes_u64_sorted tc fuel start count l :
  0 <= start <= U64_MAX ->
  Primes64.generate_primes_u64 tc fuel start count = Some l ->
  StronglySorted Z.lt l /\
  Forall (fun p => Primes64.is_prime_u64 tc p = true) l.
Proof.
  intros Hs H. unfold Primes64.generate_primes_u64 in H.
  pose proof (Primes64GenerateFacts.next_candidate_u64_range start Hs) as Hr.
  destruct (Primes64.next_candidate_u64 start =? 2).
  - apply Primes64GenerateFacts.generate_loop_u64_spec in H; [|lia].
    destruct H as (extra & -> & Hsort & Hf & _). cbn [app]. split.
    + constructor; [exact Hsort|].
      eapply Forall_impl; [|exact Hf]. cbv beta. intros p [Hp _]. lia.
    + constructor; [reflexivity|].
      eapply Forall_impl; [|exact Hf]. cbv beta. intros p [_ Hp]. exact Hp.
  - apply Primes64GenerateFacts.generate_loop_u64_spec in H; [|lia].
    destruct H as (extra & -> & Hsort & Hf & _). cbn [app]. split.
    + exact Hsort.
    + eapply Forall_impl; [|exact Hf]. cbv beta. intros p [_ Hp]. exact Hp.
Qed.

(** X29: when the 64-bit main ends with exit code 0, nothing went to the
    error stream, and the values printed are strictly increasing and all
    accepted by is_prime_u64, for every argument list. *)
Theorem X29_main_u64_output :
  forall tc fuel argv out err,
    Primes64.main tc fuel argv = Some (Exit 0 out err) ->
    err = [] /\ StronglySorted Z.lt out /\
    Forall (fun p => Primes64.is_prime_u64 tc p = true) out.
Proof.
  intros tc fuel argv out err H. unfold Primes64.main in H.
  set (start := match argv with
                | _ :: a1 :: _ =>
                  match stoull a1 with
                  | Value v => inl v
                  | Throws _ => inr (Exit 1 [] ["Argument invalide pour start"%string])
                  end
                | _ => inl U64_MAX
                end) in *.
  assert (Hstart : forall v, start = inl v -> 0 <= v <= U64_MAX).
  { subst start. intros v Hv. destruct argv as [|prog [|a1 rest]].
    - inversion Hv. unfold U64_MAX. lia.
    - inversion Hv. unfold U64_MAX. lia.
    - destruct (stoull a1) as [w|e] eqn:E; [|discriminate].
      inversion Hv; subst. apply (stoull_range a1). exact E. }
  assert (Hstop : forall stop, start = inr stop -> exists e, stop = Exit 1 [] e).
  { subst start. intros stop Hv. destruct argv as [|prog [|a1 rest]];
      try discriminate.
    destruct (stoull a1); [discriminate|]. inversion Hv. eexists. reflexivity. }
  destruct start as [v|stop].
  2:{ destruct (Hstop stop eq_refl) as [e ->]. discriminate. }
  specialize (Hstart v eq_refl).
  set (count := match argv with
                | _ :: _ :: a2 :: _ => stoull a2
                | _ => Value 100
                end) in *.
  destruct count as [c|e]; [|discriminate].
  destruct (Primes64.generate_primes_u64 tc fuel v c) as [primes|] eqn:G;
    [|discriminate].
  inversion H; subst. split; [reflexivity|].
  apply (generate_primes_u64_sorted tc fuel v c); assumption.
Qed.

Lemma X29_main_u64_output_witness :
  @nil string = [] /\ StronglySorted Z.lt [17; 19; 23] /\
  Forall (fun p => Primes64.is_prime_u64 Primes64.GNU p = true) [17; 19; 23].
Proof.
  apply (X29_main_u64_output Primes64.GNU 10 ["next_primes"; "14"; "3"]%string).
  vm_compute. reflexivity.
Defined.

(** X30: when the unbounded main ends with exit code 0, nothing went to the
    error stream, and the values printed are strictly increasing and were
    all accepted by is_prime, for every argument list and engine. *)
Theorem X30_main_output :
  forall engine (D : BigPrimes.Dist64 engine) fuel (g : engine) argv extracted
         out err,
    BigPrimes.main fuel g argv extracted = Some (Exit 0 out err) ->
    err = [] /\ StronglySorted Z.lt out /\
    Forall (fun p => exists g', fst (BigPrimes.is_prime p g') = true) out.
Proof.
  intros engine D fuel g argv extracted out err H. unfold BigPrimes.main in H.
  set (start := match argv with
                | _ :: _ :: _ =>
                  match extracted with
                  | Some v => inl v
                  | None => inr (Exit 1 [] ["Impossible de lire l'entier de départ."%string])
                  end
                | _ => inl 18446744073713598463
                end) in *.
  assert (Hstop : forall stop, start = inr stop -> exists e, stop = Exit 1 [] e).
  { subst start. intros stop Hv. destruct argv as [|prog [|a1 rest]];
      try discriminate.
    destruct extracted; [discriminate|]. inversion Hv. eexists. reflexivity. }
  destruct start as [v|stop].
  2:{ destruct (Hstop stop eq_refl) as [e ->]. discriminate. }
  set (count := match argv with
                | _ :: _ :: a2 :: _ => stoull a2
                | _ => Value 100
                end) in *.
  destruct count as [c|e]; [|discriminate].
  destruct (BigPrimes.generate_primes fuel v c g) as [primes|] eqn:G;
    [|discriminate].
  inversion H; subst. split; [reflexivity|].
  unfold BigPrimes.generate_primes in G.
  destruct (BigPrimes.next_candidate v =? 2).
  - apply BigGenerateFacts.generate_loop_spec in G.
    destruct G as (extra & -> & Hsort & Hf & _). cbn [app]. split.
    + constructor; [exact Hsort|].
      eapply Forall_impl; [|exact Hf]. cbv beta. intros p [Hp _]. lia.
    + constructor; [exists g; reflexivity|].
      eapply Forall_impl; [|exact Hf]. cbv beta. intros p [_ Hp]. exact Hp.
  - apply BigGenerateFacts.generate_loop_spec in G.
    destruct G as (extra & -> & Hsort & Hf & _). cbn [app]. split.
    + exact Hsort.
    + eapply Forall_impl; [|exact Hf]. cbv beta. intros p [_ Hp]. exact Hp.
Qed.

Lemma X30_main_output_witness :
  @nil string = [] /\ StronglySorted Z.lt [601; 607; 613] /\
  Forall (fun p => exists g', fst (BigPrimes.is_prime p g') = true)
         [601; 607; 613].
Proof.
  apply (X30_main_output Z lcg 10 2026 ["next_primes"; "600"; "3"]%string
           (Some 600)).
  vm_compute. reflexivity.
Defined.
